(** * create_icon.py: the house-with-sound-waves icon generator

    A shallow embedding of [src/create_icon.py] and the properties of its
    renderer ([create_house_with_sound_icon]) and exporter ([create_ico] and
    the [__main__] block).

    - Python floats are IEEE-754 binary64 numbers.  A float is modelled by the
      rational number it denotes, and every float operation rounds the exact
      result to the nearest number with a 53-bit significand, ties to even
      (module [Float64]).  The exponent range is not modelled: none of the
      operations of the script leaves it for an image size a machine can hold.
    - The Pillow objects (images, the drawing handle) live in a store that the
      code threads through every call; calls into Pillow are recorded in a
      trace, and each of them may raise.
    - What Pillow rasterises for an arc, a polygon or a rectangle is a
      parameter of the development ([stroke]).
    - The script is followed from the point where [PIL] has been imported. *)

From Stdlib Require Import ZArith QArith Qround Qabs Qpower Lia Lqa Ascii.
From Stdlib Require SpecFloat.
From stdpp Require Import base option list strings gmap pretty.

Local Open Scope Z_scope.

(* ===================================================================== *)
(** * Binary64 arithmetic *)
(* ===================================================================== *)

Module Float64.

(** A float is the rational it denotes. *)
Definition float := Q.

(** The integer nearest to [x], ties to the even one. *)
Definition nearest_even (x : Q) : Z :=
  let f := Qfloor x in
  match Qcompare (x - inject_Z f) (1 # 2) with
  | Lt => f
  | Gt => f + 1
  | Eq => if Z.even f then f else f + 1
  end.

(** The exponent [e] of the last place of a non-zero [q]:
    [2^52 <= |q| / 2^e < 2^53]. *)
Definition ulp_exp (q : Q) : Z :=
  let a := Qabs q in
  let e0 := Z.log2 (Qnum a) - Z.log2 (Zpos (Qden a)) - 52 in
  if Qle_bool (2 ^ 52) (a / 2 ^ e0) then e0 else e0 - 1.

(** Round to nearest, ties to even, with a 53-bit significand. *)
Definition round53 (q : Q) : float :=
  if Qeq_bool q 0 then 0%Q
  else let e := ulp_exp q in
       Qred (inject_Z (nearest_even (q / 2 ^ e)) * 2 ^ e).

(** [float(n)] *)
Definition of_int (n : Z) : float := round53 (inject_Z n).

(** A float literal, given by its decimal value. *)
Definition literal (q : Q) : float := round53 q.

(** [a / b] on two ints (true division): the correctly rounded quotient.
    The script divides by 24 only. *)
Definition int_truediv (a b : Z) : float := round53 (inject_Z a / inject_Z b).

(** [x * y] and [x + y] on floats. *)
Definition mul (x y : float) : float := round53 (x * y).
Definition add (x y : float) : float := round53 (x + y).

(** [int(x)], also the C cast [(int) x]: truncation toward zero. *)
Definition to_int (x : float) : Z := Z.quot (Qnum x) (Zpos (Qden x)).

(** The value of a finite [spec_float] of the Standard Library. *)
Definition SF2Q (f : SpecFloat.spec_float) : option Q :=
  match f with
  | SpecFloat.S754_zero _ => Some 0%Q
  | SpecFloat.S754_finite s m e =>
      Some (Qred (inject_Z (if s then Z.neg m else Z.pos m) * 2 ^ e))
  | _ => None
  end.

(** The [spec_float] of an integer. *)
Definition SFofZ (n : Z) : SpecFloat.spec_float :=
  SpecFloat.binary_normalize 53 1024 n 0 false.

End Float64.

Export Float64.

(* ===================================================================== *)
(** * Pillow: images, drawing commands, files *)
(* ===================================================================== *)

(** Image modes ([Image.new]'s first argument). *)
Inductive mode := L | RGB | RGBA.

(** A colour is the tuple the script passes: [(r, g, b, a)]. *)
Definition color : Type := Z * Z * Z * Z.

Definition alpha (c : color) : Z := let '(_, _, _, a) := c in a.
Definition rgb (c : color) : Z * Z * Z := let '(r, g, b, _) := c in (r, g, b).

(** A raster buffer: pixel [(x, y)] is defined for [0 <= x < width] and
    [0 <= y < height]. *)
Record image := {
  im_mode : mode;
  im_width : Z;
  im_height : Z;
  im_data : Z -> Z -> color
}.

Definition in_bounds (im : image) (x y : Z) : bool :=
  (0 <=? x) && (x <? im_width im) && (0 <=? y) && (y <? im_height im).

(** [im.getpixel((x, y))] *)
Definition getpixel (im : image) (x y : Z) : option color :=
  if in_bounds im x y then Some (im_data im x y) else None.

(** The number of pixels of the buffer. *)
Definition pixel_count (im : image) : Z :=
  Z.max 0 (im_width im) * Z.max 0 (im_height im).

(** The image [Image.new(mode, size, color)] creates. *)
Definition blank (m : mode) (size : Z * Z) (c : color) : image :=
  {| im_mode := m; im_width := fst size; im_height := snd size;
     im_data := fun _ _ => c |}.

(** The drawing primitives of [ImageDraw], with the arguments the script
    gives them. *)
Inductive shape :=
| Arc (xy : list float) (start stop : Z) (fill : color) (width : Z)
| Polygon (xy : list (float * float)) (fill outline : color)
| Rectangle (xy : list float) (fill outline : color) (width : option Z).

(** The colours a primitive is given. *)
Definition inks (s : shape) : list color :=
  match s with
  | Arc _ _ _ fill _ => [fill]
  | Polygon _ fill outline => [fill; outline]
  | Rectangle _ fill outline _ => [fill; outline]
  end.

Inductive format := PNG | ICO.

(** Python objects are referred to by their place in the store. *)
Definition ref := nat.

(** The object [ImageDraw.Draw(img)] returns: it draws on [img]. *)
Record ImageDraw := Draw_on { target : ref }.

(** The calls into Pillow. *)
Inductive call :=
| New (m : mode) (size : Z * Z) (c : color)
| Draw (im : ref)
| Drawn (im : ref) (s : shape)
| Save (im : ref) (fp : string) (fmt : format)
       (append_images : option (list ref)) (sizes : option (list (Z * Z))).

(** What [save] is given to encode: the image, the frames to append and the
    sizes asked for, as they are when it is called. *)
Record file := {
  file_format : format;
  file_image : image;
  file_append_images : option (list image);
  file_sizes : option (list (Z * Z))
}.

(** Exceptions deriving from [Exception]: the class and [str(e)]. *)
Record exn := { exn_class : string; exn_message : string }.

(** The state the script runs in. *)
Record world := {
  calls : list call;           (* the calls into Pillow that returned *)
  heap : list image;           (* the images alive *)
  stdout : list string;        (* one entry per [print] *)
  stderr : list exn;           (* the tracebacks printed, by their exception *)
  files : gmap string file     (* the file system *)
}.

Definition ncalls (w : world) : nat := length (calls w).

Definition log_call (c : call) (w : world) : world :=
  {| calls := calls w ++ [c]; heap := heap w; stdout := stdout w;
     stderr := stderr w; files := files w |}.

Definition set_heap (h : list image) (w : world) : world :=
  {| calls := calls w; heap := h; stdout := stdout w;
     stderr := stderr w; files := files w |}.

Definition write_stdout (s : string) (w : world) : world :=
  {| calls := calls w; heap := heap w; stdout := stdout w ++ [s];
     stderr := stderr w; files := files w |}.

Definition write_stderr (e : exn) (w : world) : world :=
  {| calls := calls w; heap := heap w; stdout := stdout w;
     stderr := stderr w ++ [e]; files := files w |}.

Definition write_file (fp : string) (f : file) (w : world) : world :=
  {| calls := calls w; heap := heap w; stdout := stdout w;
     stderr := stderr w; files := <[fp := f]> (files w) |}.

(** The library, as far as the script depends on it:
    - [stroke s x y] is the colour drawing [s] writes at pixel [(x, y)], if
      it writes there;
    - [fault n] is the exception the [n]-th call into the library raises, if
      it raises. *)
Class Pillow := {
  stroke : shape -> Z -> Z -> option color;
  fault : nat -> option exn
}.

(** Drawing one primitive on an image. *)
Definition paint `{Pillow} (im : image) (s : shape) : image :=
  {| im_mode := im_mode im; im_width := im_width im; im_height := im_height im;
     im_data := fun x y =>
       match stroke s x y with Some ink => ink | None => im_data im x y end |}.

(* ===================================================================== *)
(** * Running Python: state, exceptions, exit *)
(* ===================================================================== *)

Inductive outcome (A : Type) : Type :=
| Ok (a : A) (w : world)          (* returned [a] *)
| Raise (e : exn) (w : world)     (* an [Exception] is propagating *)
| Exit (status : Z) (w : world).  (* [SystemExit] is propagating *)
Arguments Ok {A} a w.
Arguments Raise {A} e w.
Arguments Exit {A} status w.

Definition M (A : Type) : Type := world -> outcome A.

Definition ret {A} (a : A) : M A := fun w => Ok a w.

Definition bind {A B} (m : M A) (k : A -> M B) : M B := fun w =>
  match m w with
  | Ok a w' => k a w'
  | Raise e w' => Raise e w'
  | Exit n w' => Exit n w'
  end.

Notation "x <- m ;; k" := (bind m (fun x => k))
  (at level 20, m at level 99, k at level 200, format "x  <-  m ;;  '/' k").
Notation "m ;; k" := (bind m (fun _ => k))
  (at level 100, k at level 200, right associativity, format "m ;;  '/' k").

(** [raise e] *)
Definition raise {A} (e : exn) : M A := fun w => Raise e w.

(** [try: body  except Exception as e: handler(e)] *)
Definition try_except {A} (body : M A) (handler : exn -> M A) : M A := fun w =>
  match body w with
  | Raise e w' => handler e w'
  | o => o
  end.

(** [for x in xs: body], the loop's variables threaded as [s]. *)
Fixpoint for_each {A S} (xs : list A) (body : A -> S -> M S) (s : S) : M S :=
  match xs with
  | [] => ret s
  | x :: rest => s' <- body x s;; for_each rest body s'
  end.

(** [[f(x) for x in xs]] *)
Fixpoint comprehension {A B} (f : A -> M B) (xs : list A) : M (list B) :=
  match xs with
  | [] => ret []
  | x :: rest => y <- f x;; ys <- comprehension f rest;; ret (y :: ys)
  end.

(** [print(s)] *)
Definition print (s : string) : M unit := fun w => Ok tt (write_stdout s w).

(** [traceback.print_exc()] in the handler of [e] *)
Definition print_exc (e : exn) : M unit := fun w => Ok tt (write_stderr e w).

(** [sys.exit(status)] *)
Definition sys_exit {A} (status : Z) : M A := fun w => Exit status w.

(** [xs[i]] *)
Definition index {A} (xs : list A) (i : nat) : M A :=
  match xs !! i with
  | Some x => ret x
  | None => raise {| exn_class := "IndexError";
                     exn_message := "list index out of range" |}
  end.

(** No object of the script is used after it is gone; the store says so. *)
Definition dangling : exn :=
  {| exn_class := "ReferenceError"; exn_message := "no such object" |}.

(** [img.width], [img.height] *)
Definition attr {A} (get : image -> A) (img : ref) : M A := fun w =>
  match heap w !! img with
  | Some im => Ok (get im) w
  | None => Raise dangling w
  end.

(** A call into the library: it raises when the library faults, and is
    recorded when it returns. *)
Definition library `{Pillow} {A} (c : call) (effect : world -> option (A * world))
  : M A := fun w =>
  match fault (ncalls w) with
  | Some e => Raise e w
  | None =>
      match effect w with
      | Some (a, w') => Ok a (log_call c w')
      | None => Raise dangling w
      end
  end.

(** [Image.new(mode, size, color)] *)
Definition Image_new `{Pillow} (m : mode) (size : Z * Z) (c : color) : M ref :=
  library (New m size c)
    (fun w => Some (length (heap w), set_heap (heap w ++ [blank m size c]) w)).

(** [ImageDraw.Draw(img)] *)
Definition ImageDraw_Draw `{Pillow} (img : ref) : M ImageDraw :=
  library (Draw img) (fun w => Some (Draw_on img, w)).

Definition draw_shape `{Pillow} (draw : ImageDraw) (s : shape) : M unit :=
  library (Drawn (target draw) s)
    (fun w => im ← heap w !! target draw;
              Some (tt, set_heap (<[target draw := paint im s]> (heap w)) w)).

(** [draw.arc(xy, start, end, fill=..., width=...)] *)
Definition arc `{Pillow} (draw : ImageDraw) (xy : list float) (start stop : Z)
    (fill : color) (width : Z) : M unit :=
  draw_shape draw (Arc xy start stop fill width).

(** [draw.polygon(xy, fill=..., outline=...)] *)
Definition polygon `{Pillow} (draw : ImageDraw) (xy : list (float * float))
    (fill outline : color) : M unit :=
  draw_shape draw (Polygon xy fill outline).

(** [draw.rectangle(xy, fill=..., outline=..., width=...)] *)
Definition rectangle `{Pillow} (draw : ImageDraw) (xy : list float)
    (fill outline : color) (width : option Z) : M unit :=
  draw_shape draw (Rectangle xy fill outline width).

(** [img.save(fp, format, append_images=..., sizes=...)] *)
Definition save `{Pillow} (img : ref) (fp : string) (fmt : format)
    (append_images : option (list ref)) (sizes : option (list (Z * Z))) : M unit :=
  library (Save img fp fmt append_images sizes)
    (fun w =>
       im ← heap w !! img;
       frames ← match append_images with
                | Some rs => Some <$> mapM (fun r => heap w !! r) rs
                | None => Some None
                end;
       Some (tt, write_file fp {| file_format := fmt; file_image := im;
                                  file_append_images := frames;
                                  file_sizes := sizes |} w)).

(* ===================================================================== *)
(** * The script *)
(* ===================================================================== *)

Declare Scope float_scope.
Delimit Scope float_scope with float.
Infix "*" := Float64.mul : float_scope.
Infix "+" := Float64.add : float_scope.

(** [str(n)] for an int *)
Definition str (n : Z) : string := pretty n.

(** [str(l)] for a list of ints *)
Definition str_list (l : list Z) : string :=
  "[" +:+ String.concat ", " (str <$> l) +:+ "]".

Definition newline : string := String (Ascii.ascii_of_nat 10) EmptyString.

(** [create_house_with_sound_icon(size)] *)
Definition create_house_with_sound_icon `{Pillow} (size : Z) : M ref :=
  img <- Image_new RGBA (size, size) (255, 255, 255, 0);;
  draw <- ImageDraw_Draw img;;
  let scale := int_truediv size 24 in
  let color := (40, 40, 40, 255) in
  let line_width := Z.max 1 (to_int (scale * literal 0.8)%float) in
  arc draw [literal 0.5 * scale; of_int 1 * scale;
            literal 7.5 * scale; literal 7.5 * scale]%float
      (-10) 100 color line_width;;
  arc draw [of_int 2 * scale; literal 2.5 * scale;
            of_int 7 * scale; literal 7.5 * scale]%float
      (-10) 100 color line_width;;
  arc draw [of_int 4 * scale; literal 4.5 * scale;
            of_int 7 * scale; literal 7.5 * scale]%float
      (-10) 100 color line_width;;
  let roof_points :=
    [(of_int 9 * scale, of_int 2 * scale);
     (of_int 19 * scale, of_int 12 * scale);
     (of_int 7 * scale, of_int 12 * scale)]%float in
  polygon draw roof_points color color;;
  let body_x1 := (of_int 7 * scale)%float in
  let body_y1 := (of_int 12 * scale)%float in
  let body_x2 := (of_int 19 * scale)%float in
  let body_y2 := (of_int 22 * scale)%float in
  rectangle draw [body_x1; body_y1; body_x2; body_y2] color color None;;
  (if 32 <=? size then
     let window_margin := (scale * of_int 2)%float in
     let window_size := (scale * of_int 3)%float in
     let window_x1 := (body_x1 + window_margin)%float in
     let window_y1 := (body_y1 + window_margin)%float in
     let window_x2 := (window_x1 + window_size)%float in
     let window_y2 := (window_y1 + window_size)%float in
     rectangle draw [window_x1; window_y1; window_x2; window_y2]
       (200, 200, 200, 255) color (Some (Z.max 1 (line_width / 2)))
   else ret tt);;
  ret img.

(** The default of [create_ico]'s [sizes]. *)
Definition default_sizes : list Z := [16; 24; 32; 48; 256].

(** [create_ico(output_path, sizes)] *)
Definition create_ico `{Pillow} (output_path : string) (sizes : list Z) : M unit :=
  print "Generating icon at multiple resolutions...";;
  images_data <-
    for_each sizes (fun size images_data =>
      print ("  Creating " +:+ str size +:+ "x" +:+ str size +:+ " icon...");;
      img <- create_house_with_sound_icon size;;
      ret (images_data ++ [img])) [];;
  print ("Saving ICO file to " +:+ output_path +:+ "...");;
  first <- index images_data 0;;
  dims <- comprehension (fun img =>
            w <- attr im_width img;; h <- attr im_height img;; ret (w, h))
          images_data;;
  save first output_path ICO (Some (drop 1 images_data)) (Some dims);;
  print ("Successfully created " +:+ output_path);;
  print ("Number of sizes: " +:+ str (Z.of_nat (length sizes)));;
  print ("Sizes included: " +:+ str_list sizes).

(** What the [try] block of [__main__] runs. *)
Definition main_body `{Pillow} (output_file png_file : string) : M unit :=
  print "Creating PNG icon...";;
  png_icon <- create_house_with_sound_icon 48;;
  save png_icon png_file PNG None None;;
  print ("PNG icon created: " +:+ png_file);;
  create_ico output_file default_sizes;;
  print (newline +:+ "Icon files created successfully!");;
  print ("  - " +:+ output_file +:+ " (multi-resolution ICO)");;
  print ("  - " +:+ png_file +:+ " (48x48 PNG)").

(** What its [except Exception as e] block runs. *)
Definition main_handler (e : exn) : M unit :=
  print ("Error creating icon: " +:+ exn_message e);;
  print_exc e;;
  sys_exit 1.

(** The [__main__] block. *)
Definition main `{Pillow} : M unit :=
  let output_file := "src/app.ico" in
  let png_file := "src/app.png" in
  try_except (main_body output_file png_file) main_handler.

(** The process: its exit status and the state it leaves.  An exception
    nobody caught is reported by the interpreter, with status 1. *)
Definition run `{Pillow} (w : world) : Z * world :=
  match main w with
  | Ok _ w' => (0, w')
  | Raise e w' => (1, write_stderr e w')
  | Exit status w' => (status, w')
  end.

(** ** The renderer, read as functions of [size] *)

Definition scale_of (size : Z) : float := int_truediv size 24.

Definition foreground : color := (40, 40, 40, 255).
Definition light_gray : color := (200, 200, 200, 255).
Definition transparent_white : color := (255, 255, 255, 0).

Definition line_width (size : Z) : Z :=
  Z.max 1 (to_int (scale_of size * literal 0.8)%float).

Definition sound_waves (size : Z) : list shape :=
  let scale := scale_of size in
  [Arc [literal 0.5 * scale; of_int 1 * scale;
        literal 7.5 * scale; literal 7.5 * scale]%float
       (-10) 100 foreground (line_width size);
   Arc [of_int 2 * scale; literal 2.5 * scale;
        of_int 7 * scale; literal 7.5 * scale]%float
       (-10) 100 foreground (line_width size);
   Arc [of_int 4 * scale; literal 4.5 * scale;
        of_int 7 * scale; literal 7.5 * scale]%float
       (-10) 100 foreground (line_width size)].

Definition roof (size : Z) : shape :=
  let scale := scale_of size in
  Polygon [(of_int 9 * scale, of_int 2 * scale);
           (of_int 19 * scale, of_int 12 * scale);
           (of_int 7 * scale, of_int 12 * scale)]%float foreground foreground.

Definition body_x1 (size : Z) : float := (of_int 7 * scale_of size)%float.
Definition body_y1 (size : Z) : float := (of_int 12 * scale_of size)%float.
Definition body_x2 (size : Z) : float := (of_int 19 * scale_of size)%float.
Definition body_y2 (size : Z) : float := (of_int 22 * scale_of size)%float.

Definition body (size : Z) : shape :=
  Rectangle [body_x1 size; body_y1 size; body_x2 size; body_y2 size]
            foreground foreground None.

Definition window_margin (size : Z) : float := (scale_of size * of_int 2)%float.
Definition window_size (size : Z) : float := (scale_of size * of_int 3)%float.
Definition window_x1 (size : Z) : float := (body_x1 size + window_margin size)%float.
Definition window_y1 (size : Z) : float := (body_y1 size + window_margin size)%float.
Definition window_x2 (size : Z) : float := (window_x1 size + window_size size)%float.
Definition window_y2 (size : Z) : float := (window_y1 size + window_size size)%float.

Definition window (size : Z) : shape :=
  Rectangle [window_x1 size; window_y1 size; window_x2 size; window_y2 size]
            light_gray foreground (Some (Z.max 1 (line_width size / 2))).

(** The primitives [create_house_with_sound_icon(size)] draws, in order. *)
Definition shapes (size : Z) : list shape :=
  sound_waves size ++ [roof size; body size]
  ++ (if 32 <=? size then [window size] else []).

(** The image it returns. *)
Definition icon `{Pillow} (size : Z) : image :=
  foldl paint (blank RGBA (size, size) transparent_white) (shapes size).

(** The calls it makes when the image is object [img]. *)
Definition rendering (size : Z) (img : ref) : list call :=
  New RGBA (size, size) transparent_white :: Draw img :: (Drawn img <$> shapes size).

(** ** The exporter, read as functions of [sizes] *)

(** The calls of rendering each of [sizes] in turn, the first of them into
    object [img], the next into the object after it, and so on. *)
Fixpoint renderings (sizes : list Z) (img : ref) : list call :=
  match sizes with
  | [] => []
  | size :: rest => rendering size img ++ renderings rest (S img)
  end.

(** The line [create_ico] prints before it renders [size]. *)
Definition creating (size : Z) : string :=
  "  Creating " +:+ str size +:+ "x" +:+ str size +:+ " icon...".

(** The width and height of an image. *)
Definition dimensions (im : image) : Z * Z := (im_width im, im_height im).

(** The file [create_ico] asks [save] to write for [size :: rest]. *)
Definition ico_written `{Pillow} (size : Z) (rest : list Z) : file :=
  {| file_format := ICO; file_image := icon size;
     file_append_images := Some (icon <$> rest);
     file_sizes := Some ((fun s => (s, s)) <$> (size :: rest)) |}.

(** The file the script asks [save] to write as the PNG. *)
Definition png_written `{Pillow} (size : Z) : file :=
  {| file_format := PNG; file_image := icon size;
     file_append_images := None; file_sizes := None |}.

(** The lines [create_ico] prints. *)
Definition ico_stdout (output_path : string) (sizes : list Z) : list string :=
  ["Generating icon at multiple resolutions..."]
  ++ (creating <$> sizes)
  ++ ["Saving ICO file to " +:+ output_path +:+ "...";
      "Successfully created " +:+ output_path;
      "Number of sizes: " +:+ str (Z.of_nat (length sizes));
      "Sizes included: " +:+ str_list sizes].

(** Its one call of [save], when the first image is object [img]. *)
Definition ico_save (output_path : string) (sizes : list Z) (img : ref) : call :=
  Save img output_path ICO
       (Some (seq (S img) (length sizes - 1)))
       (Some ((fun s => (s, s)) <$> sizes)).

(** The world [create_ico(output_path, size :: rest)] leaves. *)
Definition exported `{Pillow} (output_path : string) (size : Z) (rest : list Z)
    (w : world) : world :=
  {| calls := calls w ++ renderings (size :: rest) (length (heap w))
                      ++ [ico_save output_path (size :: rest) (length (heap w))];
     heap := heap w ++ (icon <$> size :: rest);
     stdout := stdout w ++ ico_stdout output_path (size :: rest);
     stderr := stderr w;
     files := <[output_path := ico_written size rest]> (files w) |}.

(** The world the [try] block of [__main__] leaves. *)
Definition finished `{Pillow} (output_file png : string) (w : world) : world :=
  {| calls := calls w ++ rendering 48 (length (heap w))
                      ++ [Save (length (heap w)) png PNG None None]
                      ++ renderings default_sizes (S (length (heap w)))
                      ++ [ico_save output_file default_sizes (S (length (heap w)))];
     heap := heap w ++ icon 48 :: (icon <$> default_sizes);
     stdout := stdout w
               ++ ["Creating PNG icon..."; "PNG icon created: " +:+ png]
               ++ ico_stdout output_file default_sizes
               ++ [newline +:+ "Icon files created successfully!";
                   "  - " +:+ output_file +:+ " (multi-resolution ICO)";
                   "  - " +:+ png +:+ " (48x48 PNG)"];
     stderr := stderr w;
     files := <[output_file := ico_written 16 [24; 32; 48; 256]]>
                (<[png := png_written 48]> (files w)) |}.

(** The number of calls into the library of one run without a fault. *)
Definition main_calls : nat := 48.

(** ** Faults of the library *)

(** None of the [k] calls from the [n]-th on raises. *)
Definition quiet `{Pillow} (n k : nat) : Prop :=
  forall j : nat, (n <= j < n + k)%nat -> fault j = None.

(** The world after more calls [cs] into the library, with one more image
    [im] in the store. *)
Definition rendered (w : world) (cs : list call) (im : image) : world :=
  {| calls := calls w ++ cs; heap := heap w ++ [im]; stdout := stdout w;
     stderr := stderr w; files := files w |}.

(** ** Reading a run *)

(** The calls made from world [w] to world [w']. *)
Definition calls_since (w w' : world) : list call := drop (ncalls w) (calls w').

(** The primitives drawn on object [img] by the calls [cs], in order. *)
Definition drawn_on (img : ref) (cs : list call) : list shape :=
  omap (fun c => match c with
                 | Drawn img' s => if decide (img' = img) then Some s else None
                 | _ => None
                 end) cs.

(** The sizes of the images created by the calls [cs], in order. *)
Definition created (cs : list call) : list (Z * Z) :=
  omap (fun c => match c with New _ size _ => Some size | _ => None end) cs.

(** The calls of [save] among [cs], in order. *)
Definition saved (cs : list call) : list call :=
  omap (fun c => match c with Save _ _ _ _ _ => Some c | _ => None end) cs.

(** The stroke widths of the arcs among [ss], in order. *)
Definition arc_widths (ss : list shape) : list Z :=
  omap (fun s => match s with Arc _ _ _ _ width => Some width | _ => None end) ss.

(** The angles of the arcs among [ss], in order. *)
Definition arc_angles (ss : list shape) : list (Z * Z) :=
  omap (fun s => match s with Arc _ start stop _ _ => Some (start, stop) | _ => None end) ss.

(** The primitives among [ss] that are given the colour [c]. *)
Definition with_ink (c : color) (ss : list shape) : list shape :=
  filter (fun s => c ∈ inks s) ss.

(** The colour the last primitive of [ss] that writes pixel [(x, y)] writes
    there. *)
Fixpoint last_stroke `{Pillow} (ss : list shape) (x y : Z) : option color :=
  match ss with
  | [] => None
  | s :: rest =>
      match last_stroke rest x y with
      | Some ink => Some ink
      | None => stroke s x y
      end
  end.

(** The image without its alpha channel ([img.convert("RGB")]). *)
Definition flatten (im : image) (x y : Z) : option (Z * Z * Z) :=
  rgb <$> getpixel im x y.

(** The mode has an alpha channel. *)
Definition has_alpha (m : mode) : bool :=
  match m with RGBA => true | _ => false end.

(** The world before the script runs: nothing called, nothing allocated,
    nothing printed, no file. *)
Definition empty_world : world :=
  {| calls := []; heap := []; stdout := []; stderr := []; files := ∅ |}.

(** [v] is [ideal] up to a few roundings: within [2^-50], which is
    [1 / 1125899906842624], of it. *)
Definition near (v ideal : Q) : Prop :=
  ((1 - (1 # 1125899906842624)) * ideal <= v <= (1 + (1 # 1125899906842624)) * ideal)%Q.

(** ** The stroke width read as rounding to nearest *)

(** Arithmetic rounding to the nearest integer (halves go up). *)
Definition arith_round (x : float) : Z := Qfloor (x + (1 # 2)).

(** [max(1, round(size / 24 * 0.8))] *)
Definition rounded_line_width (size : Z) : Z :=
  Z.max 1 (arith_round (scale_of size * literal 0.8)%float).

(** ** What the rasteriser is assumed to do *)

(** The width of a rectangle's outline: [width], 1 when not given. *)
Definition border (width : option Z) : Z := default 1 width.

(** - drawing writes no colour but the ones the primitive is given;
    - a rectangle is drawn within its corners, the coordinates truncated to
      pixels;
    - within its outline, [border width] pixels wide, a rectangle is
      filled. *)
Class Rasteriser `{Pillow} : Prop := {
  stroke_ink : forall s x y ink, stroke s x y = Some ink -> ink ∈ inks s;
  rectangle_within : forall x1 y1 x2 y2 fill outline width x y ink,
    stroke (Rectangle [x1; y1; x2; y2] fill outline width) x y = Some ink ->
    to_int x1 <= x <= to_int x2 /\ to_int y1 <= y <= to_int y2;
  rectangle_filled : forall x1 y1 x2 y2 fill outline width x y,
    0 <= border width ->
    to_int x1 + border width <= x <= to_int x2 - border width ->
    to_int y1 + border width <= y <= to_int y2 - border width ->
    stroke (Rectangle [x1; y1; x2; y2] fill outline width) x y = Some fill
}.

(** ** A reference rasteriser *)

(** A rectangle: the pixels between its truncated corners, the outline
    [border width] pixels wide. *)
Definition rectangle_stroke (xy : list float) (fill outline : color)
    (width : option Z) (x y : Z) : option color :=
  match xy with
  | [x1; y1; x2; y2] =>
      let '(l, t, r, b) := (to_int x1, to_int y1, to_int x2, to_int y2) in
      let bw := border width in
      if (l <=? x) && (x <=? r) && (t <=? y) && (y <=? b) then
        if (l + bw <=? x) && (x <=? r - bw) && (t + bw <=? y) && (y <=? b - bw)
        then Some fill else Some outline
      else None
  | _ => None
  end.

(** The ray from [(x, y)] to the right crosses the edge from [p] to [q]. *)
Definition crosses (x y : Z) (p q : Z * Z) : bool :=
  let '(x1, y1) := p in
  let '(x2, y2) := q in
  if bool_decide ((y1 <= y) <-> (y2 <= y)) then false
  else if y1 <? y2 then (x - x1) * (y2 - y1) <? (y - y1) * (x2 - x1)
       else (y - y1) * (x2 - x1) <? (x - x1) * (y2 - y1).

(** A polygon: the pixels inside it, by the even-odd rule on its truncated
    vertices. *)
Definition polygon_stroke (xy : list (float * float)) (fill : color)
    (x y : Z) : option color :=
  let pts := (fun p => (to_int (fst p), to_int (snd p))) <$> xy in
  let edges := zip pts (drop 1 pts ++ take 1 pts) in
  if foldr (fun e odd => xorb (crosses x y (fst e) (snd e)) odd) false edges
  then Some fill else None.

(** Sine and cosine of an angle in degrees, by their Taylor polynomials. *)
Definition radians (deg : Z) : Q := inject_Z ((deg + 180) mod 360 - 180) * (355 # 113) / 180.
Definition sine (deg : Z) : Q :=
  let t := radians deg in
  (t - t ^ 3 / 6 + t ^ 5 / 120 - t ^ 7 / 5040 + t ^ 9 / 362880 - t ^ 11 / 39916800)%Q.
Definition cosine (deg : Z) : Q :=
  let t := radians deg in
  (1 - t ^ 2 / 2 + t ^ 4 / 24 - t ^ 6 / 720 + t ^ 8 / 40320 - t ^ 10 / 3628800)%Q.

(** An arc: the pixels of the ellipse inscribed in the truncated box, in a
    band [width] pixels wide, between the two angles (clockwise from three
    o'clock).  Coordinates are doubled to keep the centre integral. *)
Definition arc_stroke (xy : list float) (start stop : Z) (fill : color)
    (width : Z) (x y : Z) : option color :=
  match xy with
  | [x1; y1; x2; y2] =>
      let '(l, t, r, b) := (to_int x1, to_int y1, to_int x2, to_int y2) in
      let '(u, v) := (2 * x - (l + r), 2 * y - (t + b)) in
      let '(rx, ry) := (r - l, b - t) in
      let '(rx', ry') := (Z.max 0 (rx - 2 * width), Z.max 0 (ry - 2 * width)) in
      let on_band :=
        (u * u * (ry * ry) + v * v * (rx * rx) <=? rx * rx * (ry * ry))
        && (rx' * rx' * (ry' * ry') <=? u * u * (ry' * ry') + v * v * (rx' * rx')) in
      let after_start :=
        Qle_bool 0 (cosine start * inject_Z v - sine start * inject_Z u) in
      let before_stop :=
        Qle_bool 0 (inject_Z u * sine stop - inject_Z v * cosine stop) in
      let in_sector :=
        if 360 <=? stop - start then true
        else if stop - start <=? 180 then after_start && before_stop
        else after_start || before_stop in
      if on_band && in_sector then Some fill else None
  | _ => None
  end.

Definition reference_stroke (s : shape) (x y : Z) : option color :=
  match s with
  | Arc xy start stop fill width => arc_stroke xy start stop fill width x y
  | Polygon xy fill outline => polygon_stroke xy fill x y
  | Rectangle xy fill outline width => rectangle_stroke xy fill outline width x y
  end.

(** The reference library: it rasterises as above and never faults. *)
Definition reference : Pillow :=
  {| stroke := reference_stroke; fault := fun _ => None |}.

(** A library that rasterises as the reference does and raises [e] in its
    [n]-th call. *)
Definition failing (n : nat) (e : exn) : Pillow :=
  {| stroke := reference_stroke;
     fault := fun k => if decide (k = n) then Some e else None |}.

(** ** The floats of the script, by the Standard Library's binary64 *)

(** The scale, the product the stroke width is taken from, and the corners
    of the body and of the window, computed with [SpecFloat]'s operations
    at precision 53 and maximal exponent 1024. *)
Definition SpecFloat_values (size : Z) : list SpecFloat.spec_float :=
  let fdiv := SpecFloat.SFdiv 53 1024 in
  let fmul := SpecFloat.SFmul 53 1024 in
  let fadd := SpecFloat.SFadd 53 1024 in
  let scale := fdiv (SFofZ size) (SFofZ 24) in
  let body_x1 := fmul (SFofZ 7) scale in
  let body_y1 := fmul (SFofZ 12) scale in
  let window_x1 := fadd body_x1 (fmul scale (SFofZ 2)) in
  let window_y1 := fadd body_y1 (fmul scale (SFofZ 2)) in
  [scale; fmul scale (fdiv (SFofZ 8) (SFofZ 10));
   body_x1; body_y1; fmul (SFofZ 19) scale; fmul (SFofZ 22) scale;
   window_x1; window_y1;
   fadd window_x1 (fmul scale (SFofZ 3)); fadd window_y1 (fmul scale (SFofZ 3))].

(** The same values in the model. *)
Definition model_values (size : Z) : list float :=
  [scale_of size; (scale_of size * literal 0.8)%float;
   body_x1 size; body_y1 size; body_x2 size; body_y2 size;
   window_x1 size; window_y1 size; window_x2 size; window_y2 size].

(** An exception a call of [save] may raise. *)
Definition disk_full : exn :=
  {| exn_class := "OSError"; exn_message := "[Errno 28] No space left on device" |}.

(** ** The coordinates of a primitive *)

(** The numbers a primitive is given as coordinates. *)
Definition coordinates_of (s : shape) : list float :=
  match s with
  | Arc xy _ _ _ _ => xy
  | Polygon xy _ _ => flat_map (fun p => [fst p; snd p]) xy
  | Rectangle xy _ _ _ => xy
  end.

(** The bounding box of an arc or of a rectangle has its left edge not
    right of its right edge, and its top edge not below its bottom edge. *)
Definition box_ordered (s : shape) : Prop :=
  match s with
  | Arc [x0; y0; x1; y1] _ _ _ _ | Rectangle [x0; y0; x1; y1] _ _ _ =>
      (x0 <= x1 /\ y0 <= y1)%Q
  | Polygon _ _ _ => True
  | _ => False
  end.

(** The widths given to the rectangles among [ss], in order; [None] where
    the call gives none. *)
Definition rectangle_widths (ss : list shape) : list (option Z) :=
  omap (fun s => match s with Rectangle _ _ _ width => Some width | _ => None end) ss.

(** ** The imports of the script *)

(** The exception [from PIL import ...] raises when Pillow is missing. *)
Definition module_not_found : exn :=
  {| exn_class := "ModuleNotFoundError"; exn_message := "No module named 'PIL'" |}.

(** [isinstance(e, ImportError)]: [ModuleNotFoundError] derives from
    [ImportError]. *)
Definition is_ImportError (e : exn) : bool :=
  bool_decide (exn_class e = "ImportError")
  || bool_decide (exn_class e = "ModuleNotFoundError").

(** [from PIL import Image, ImageDraw], where Pillow is [installed] or not. *)
Definition import_PIL (installed : bool) : M unit :=
  if installed then ret tt else raise module_not_found.

(** [try: body  except ImportError: handler] *)
Definition try_except_ImportError {A} (body : M A) (handler : M A) : M A := fun w =>
  match body w with
  | Raise e w' => if is_ImportError e then handler w' else Raise e w'
  | o => o
  end.

(** The whole module, run as a script: the imports, then [__main__]. *)
Definition script `{Pillow} (installed : bool) : M unit :=
  try_except_ImportError (import_PIL installed)
    (print "Error: Pillow not installed.";;
     print "Please run: pip install pillow";;
     sys_exit 1);;
  main.

(** The process that runs the script: its exit status and the state it
    leaves. *)
Definition process `{Pillow} (installed : bool) (w : world) : Z * world :=
  match script installed w with
  | Ok _ w' => (0, w')
  | Raise e w' => (1, write_stderr e w')
  | Exit status w' => (status, w')
  end.

(** What a run without a fault prints: the argument of each [print]. *)
Definition success_stdout : list string :=
  ["Creating PNG icon...";
   "PNG icon created: src/app.png";
   "Generating icon at multiple resolutions...";
   "  Creating 16x16 icon...";
   "  Creating 24x24 icon...";
   "  Creating 32x32 icon...";
   "  Creating 48x48 icon...";
   "  Creating 256x256 icon...";
   "Saving ICO file to src/app.ico...";
   "Successfully created src/app.ico";
   "Number of sizes: 5";
   "Sizes included: [16, 24, 32, 48, 256]";
   newline +:+ "Icon files created successfully!";
   "  - src/app.ico (multi-resolution ICO)";
   "  - src/app.png (48x48 PNG)"].

(** [s.split(newline)]: the pieces of [s] between its newlines. *)
Fixpoint split_newline (s : string) : list string :=
  match s with
  | EmptyString => [EmptyString]
  | String c rest =>
      match split_newline rest with
      | piece :: pieces =>
          if Ascii.eqb c (Ascii.ascii_of_nat 10)
          then EmptyString :: piece :: pieces
          else String c piece :: pieces
      | [] => []
      end
  end.

(** The lines written to the standard output: [print] ends its argument
    with a newline, and a newline within the argument ends a line too. *)
Definition stdout_lines (out : list string) : list string :=
  out ≫= split_newline.

(** The lines a run without a fault writes: the thirteenth [print] starts
    with a newline, which leaves one line empty. *)
Definition success_lines : list string :=
  ["Creating PNG icon...";
   "PNG icon created: src/app.png";
   "Generating icon at multiple resolutions...";
   "  Creating 16x16 icon...";
   "  Creating 24x24 icon...";
   "  Creating 32x32 icon...";
   "  Creating 48x48 icon...";
   "  Creating 256x256 icon...";
   "Saving ICO file to src/app.ico...";
   "Successfully created src/app.ico";
   "Number of sizes: 5";
   "Sizes included: [16, 24, 32, 48, 256]";
   EmptyString;
   "Icon files created successfully!";
   "  - src/app.ico (multi-resolution ICO)";
   "  - src/app.png (48x48 PNG)"].

(* ===================================================================== *)
(** * Facts about binary64 arithmetic *)
(* ===================================================================== *)

Module Float64Facts.

(** Linear arithmetic over the rationals, the injected integers taken as
    unknowns. *)
Ltac inject_lra :=
  change (inject_Z 0) with 0%Q in *;
  repeat match goal with
         | |- context [inject_Z (Zpos ?p)] =>
             change (inject_Z (Zpos p)) with (Zpos p # 1)%Q in *
         | H : context [inject_Z (Zpos ?p)] |- _ =>
             change (inject_Z (Zpos p)) with (Zpos p # 1)%Q in *
         end;
  repeat match goal with
         | |- context [inject_Z ?z] =>
             let q := fresh "q" in set (q := inject_Z z) in *; clearbody q
         | H : context [inject_Z ?z] |- _ =>
             let q := fresh "q" in set (q := inject_Z z) in *; clearbody q
         end;
  lra.

Lemma nearest_even_error (x : Q) :
  (x - (1 # 2) <= inject_Z (nearest_even x) <= x + (1 # 2))%Q.
Proof.
  unfold nearest_even.
  pose proof (Qfloor_le x) as Hlo.
  pose proof (Qlt_floor x) as Hhi.
  rewrite inject_Z_plus in Hhi. change (inject_Z 1) with 1%Q in Hhi.
  destruct (Qcompare_spec (x - inject_Z (Qfloor x)) (1 # 2)) as [He|Hl|Hg];
    [destruct (Z.even (Qfloor x))| |];
    rewrite ?inject_Z_plus; change (inject_Z 1) with 1%Q;
    generalize dependent (inject_Z (Qfloor x)); intros; lra.
Qed.

Lemma two_power_pos (e : Z) : (0 < 2 ^ e)%Q.
Proof. apply Qpower_0_lt. reflexivity. Qed.

Lemma two_power_succ (e : Z) : (2 ^ (e + 1) == 2 * 2 ^ e)%Q.
Proof. rewrite Qpower_plus by discriminate. simpl. ring. Qed.

Lemma two_power_inject (k : Z) : 0 <= k -> (inject_Z (2 ^ k) == 2 ^ k)%Q.
Proof. intros Hk. rewrite Zpower_Qpower by assumption. reflexivity. Qed.

(** A positive rational lies strictly above [2^(log2 n - log2 d - 1)]. *)
Lemma log2_ratio_lower (n d : positive) :
  (2 ^ (Z.log2 (Zpos n) - Z.log2 (Zpos d) - 1) < Zpos n # d)%Q.
Proof.
  pose proof (Z.log2_spec (Zpos n) eq_refl) as [Hn _].
  pose proof (Z.log2_spec (Zpos d) eq_refl) as [_ Hd].
  pose proof (Z.log2_nonneg (Zpos n)) as Hln.
  pose proof (Z.log2_nonneg (Zpos d)) as Hld.
  set (ln := Z.log2 (Zpos n)) in *. set (ld := Z.log2 (Zpos d)) in *.
  replace (ln - ld - 1) with (ln - (ld + 1)) by lia.
  rewrite Qpower_minus by discriminate.
  rewrite <- !two_power_inject by lia.
  assert (H1 : (inject_Z (2 ^ ln) <= inject_Z (Zpos n))%Q)
    by (rewrite <- Zle_Qle; exact Hn).
  assert (H2 : (inject_Z (Zpos d) < inject_Z (2 ^ Z.succ ld))%Q)
    by (rewrite <- Zlt_Qlt; exact Hd).
  replace (ld + 1) with (Z.succ ld) by lia.
  assert (H3 : (0 < inject_Z (2 ^ Z.succ ld))%Q)
    by (rewrite two_power_inject by lia; apply two_power_pos).
  assert (H4 : (0 < inject_Z (Zpos d))%Q) by reflexivity.
  assert (H5 : (0 < inject_Z (2 ^ ln))%Q)
    by (rewrite two_power_inject by lia; apply two_power_pos).
  rewrite (Qmake_Qdiv (Zpos n) d).
  apply Qlt_shift_div_l; [exact H4|].
  unfold Qdiv. rewrite <- Qmult_assoc, (Qmult_comm (/ _)).
  rewrite Qmult_assoc.
  apply Qlt_le_trans with (inject_Z (2 ^ ln) * inject_Z (2 ^ Z.succ ld) * / inject_Z (2 ^ Z.succ ld))%Q.
  - apply Qmult_lt_compat_r; [apply Qinv_lt_0_compat; exact H3|].
    apply Qmult_lt_l; assumption.
  - rewrite <- Qmult_assoc, Qmult_inv_r, Qmult_1_r by lra. exact H1.
Qed.

Lemma ulp_exp_lower (q : Q) : (0 < q)%Q -> (2 ^ 52 <= q / 2 ^ ulp_exp q)%Q.
Proof.
  intros Hq. unfold ulp_exp.
  destruct q as [n d].
  assert (Hn : 0 < n) by (unfold Qlt in Hq; simpl in Hq; lia).
  destruct n as [|n|n]; try lia.
  change (Qabs (Zpos n # d)) with (Zpos n # d). simpl Qnum. simpl Qden.
  set (e0 := Z.log2 (Zpos n) - Z.log2 (Zpos d) - 52).
  destruct (Qle_bool (2 ^ 52) ((Zpos n # d) / 2 ^ e0)) eqn:Hb.
  - apply Qle_bool_iff. exact Hb.
  - pose proof (log2_ratio_lower n d) as Hlow.
    replace (Z.log2 (Zpos n) - Z.log2 (Zpos d) - 1) with ((e0 - 1) + 52) in Hlow
      by (unfold e0; lia).
    rewrite Qpower_plus in Hlow by discriminate.
    pose proof (two_power_pos (e0 - 1)) as Hp.
    apply Qle_shift_div_l; [exact Hp|].
    rewrite Qmult_comm. lra.
Qed.

(** A positive rational lies strictly below [2^(log2 n - log2 d + 1)]. *)
Lemma log2_ratio_upper (n d : positive) :
  (Zpos n # d < 2 ^ (Z.log2 (Zpos n) - Z.log2 (Zpos d) + 1))%Q.
Proof.
  pose proof (Z.log2_spec (Zpos n) eq_refl) as [_ Hn].
  pose proof (Z.log2_spec (Zpos d) eq_refl) as [Hd _].
  pose proof (Z.log2_nonneg (Zpos n)) as Hln.
  pose proof (Z.log2_nonneg (Zpos d)) as Hld.
  set (ln := Z.log2 (Zpos n)) in *. set (ld := Z.log2 (Zpos d)) in *.
  replace (ln - ld + 1) with (Z.succ ln - ld) by lia.
  rewrite Qpower_minus by discriminate.
  rewrite <- !two_power_inject by lia.
  assert (H1 : (inject_Z (Zpos n) < inject_Z (2 ^ Z.succ ln))%Q)
    by (rewrite <- Zlt_Qlt; exact Hn).
  assert (H2 : (inject_Z (2 ^ ld) <= inject_Z (Zpos d))%Q)
    by (rewrite <- Zle_Qle; exact Hd).
  assert (H3 : (0 < inject_Z (2 ^ ld))%Q)
    by (rewrite two_power_inject by lia; apply two_power_pos).
  assert (H4 : (0 < inject_Z (Zpos d))%Q) by reflexivity.
  assert (H5 : (0 < inject_Z (2 ^ Z.succ ln))%Q)
    by (rewrite two_power_inject by lia; apply two_power_pos).
  rewrite (Qmake_Qdiv (Zpos n) d).
  apply Qlt_shift_div_r; [exact H4|].
  assert (Hr : (0 < inject_Z (2 ^ Z.succ ln) / inject_Z (2 ^ ld))%Q)
    by (apply Qlt_shift_div_l; [exact H3 | rewrite Qmult_0_l; exact H5]).
  assert (Hry : (inject_Z (2 ^ Z.succ ln) / inject_Z (2 ^ ld) * inject_Z (2 ^ ld)
                 == inject_Z (2 ^ Z.succ ln))%Q) by (field; lra).
  set (r := (inject_Z (2 ^ Z.succ ln) / inject_Z (2 ^ ld))%Q) in *. clearbody r.
  assert (Hprod : (0 <= r * (inject_Z (Zpos d) - inject_Z (2 ^ ld)))%Q)
    by (apply Qmult_le_0_compat; lra).
  inject_lra.
Qed.

Lemma ulp_exp_upper (q : Q) : (0 < q)%Q -> (q / 2 ^ ulp_exp q < 2 ^ 53)%Q.
Proof.
  intros Hq. unfold ulp_exp.
  destruct q as [n d].
  assert (Hn : 0 < n) by (unfold Qlt in Hq; simpl in Hq; lia).
  destruct n as [|n|n]; try lia.
  change (Qabs (Zpos n # d)) with (Zpos n # d). simpl Qnum. simpl Qden.
  set (e0 := Z.log2 (Zpos n) - Z.log2 (Zpos d) - 52).
  pose proof (two_power_pos e0) as Hp0.
  pose proof (two_power_pos (e0 - 1)) as Hp1.
  assert (He : (2 ^ e0 == 2 * 2 ^ (e0 - 1))%Q).
  { rewrite <- two_power_succ. replace (e0 - 1 + 1) with e0 by lia. reflexivity. }
  destruct (Qle_bool (2 ^ 52) ((Zpos n # d) / 2 ^ e0)) eqn:Hb.
  - pose proof (log2_ratio_upper n d) as Hup.
    replace (Z.log2 (Zpos n) - Z.log2 (Zpos d) + 1) with (e0 + 53) in Hup
      by (unfold e0; lia).
    rewrite Qpower_plus in Hup by discriminate.
    apply Qlt_shift_div_r; [exact Hp0|].
    rewrite Qmult_comm. exact Hup.
  - assert (Hlt : ((Zpos n # d) / 2 ^ e0 < 2 ^ 52)%Q).
    { apply Qnot_le_lt. intros Hle. apply Qle_bool_iff in Hle. congruence. }
    apply Qlt_shift_div_r; [exact Hp1|].
    assert (Ha : (Zpos n # d == (Zpos n # d) / 2 ^ e0 * 2 ^ e0)%Q) by (field; lra).
    set (y := ((Zpos n # d) / 2 ^ e0)%Q) in *. clearbody y.
    rewrite He in Ha.
    set (p := (2 ^ (e0 - 1))%Q) in *. clearbody p.
    assert (Hc52 : (2 ^ 52 == 4503599627370496)%Q) by reflexivity.
    assert (Hc53 : (2 ^ 53 == 9007199254740992)%Q) by reflexivity.
    rewrite Hc52 in Hlt. rewrite Hc53.
    assert (Hprod : (0 < (4503599627370496 - y) * p)%Q)
      by (apply Qmult_lt_0_compat; lra).
    set (a := (Zpos n # d)%Q) in *. clearbody a. lra.
Qed.

(** A tie goes to the even neighbour. *)
Lemma nearest_even_tie (x : Q) :
  (x - inject_Z (Qfloor x) == 1 # 2)%Q -> Z.even (nearest_even x) = true.
Proof.
  intros Htie. unfold nearest_even.
  rewrite (proj1 (Qeq_alt _ _) Htie).
  destruct (Z.even (Qfloor x)) eqn:He; [exact He|].
  rewrite Z.even_add, He. reflexivity.
Qed.

(** The result of a rounding has a significand of 53 bits. *)
Lemma round53_representable (q : Q) :
  (0 < q)%Q ->
  exists m e : Z, (round53 q == inject_Z m * 2 ^ e)%Q /\ 2 ^ 52 <= m <= 2 ^ 53.
Proof.
  intros Hq. unfold round53.
  destruct (Qeq_bool q 0) eqn:Hz.
  { apply Qeq_bool_iff in Hz. lra. }
  exists (nearest_even (q / 2 ^ ulp_exp q)), (ulp_exp q).
  split; [apply Qred_correct|].
  pose proof (ulp_exp_lower q Hq) as Hlo.
  pose proof (ulp_exp_upper q Hq) as Hhi.
  set (x := (q / 2 ^ ulp_exp q)%Q) in *. clearbody x.
  assert (Hf1 : 2 ^ 52 <= Qfloor x).
  { change (2 ^ 52) with (Qfloor (inject_Z (2 ^ 52))).
    apply Qfloor_resp_le. exact Hlo. }
  assert (Hf2 : Qfloor x < 2 ^ 53).
  { pose proof (Qfloor_le x) as Hle.
    assert (H : (inject_Z (Qfloor x) < inject_Z (2 ^ 53))%Q).
    { apply Qle_lt_trans with x; [exact Hle | exact Hhi]. }
    rewrite <- Zlt_Qlt in H. exact H. }
  unfold nearest_even.
  destruct (Qcompare (x - inject_Z (Qfloor x)) (1 # 2));
    [destruct (Z.even (Qfloor x))| |]; lia.
Qed.

(** The relative error of one rounding is at most [2^-53], which is
    [1 / 9007199254740992]. *)
Lemma round53_error (q : Q) :
  (0 < q)%Q ->
  ((1 - (1 # 9007199254740992)) * q <= round53 q <= (1 + (1 # 9007199254740992)) * q)%Q.
Proof.
  intros Hq. unfold round53.
  destruct (Qeq_bool q 0) eqn:Hz.
  { apply Qeq_bool_iff in Hz. lra. }
  rewrite Qred_correct.
  pose proof (ulp_exp_lower q Hq) as Hlow.
  set (e := ulp_exp q) in *.
  pose proof (two_power_pos e) as Hp.
  pose proof (nearest_even_error (q / 2 ^ e)) as [Hm1 Hm2].
  set (m := inject_Z (nearest_even (q / 2 ^ e))) in *.
  assert (Hx : (q == (q / 2 ^ e) * 2 ^ e)%Q) by (field; lra).
  set (x := (q / 2 ^ e)%Q) in *. set (p := (2 ^ e)%Q) in *.
  assert (Hc : (2 ^ 52 == 4503599627370496)%Q) by reflexivity.
  rewrite Hc in Hlow.
  assert (A1 : (0 <= (x - 4503599627370496) * p)%Q)
    by (apply Qmult_le_0_compat; lra).
  assert (A2 : (0 <= (x + (1 # 2) - m) * p)%Q)
    by (apply Qmult_le_0_compat; lra).
  assert (A3 : (0 <= (m - (x - (1 # 2))) * p)%Q)
    by (apply Qmult_le_0_compat; lra).
  split; rewrite Hx; lra.
Qed.


(** [int(x)] is the floor of a float that is not negative. *)
Lemma to_int_floor (x : float) :
  (0 <= x)%Q -> (inject_Z (to_int x) <= x < inject_Z (to_int x) + 1)%Q.
Proof.
  intros Hx. unfold to_int.
  assert (Hn : 0 <= Qnum x) by (unfold Qle in Hx; simpl in Hx; lia).
  rewrite Z.quot_div_nonneg by lia.
  replace (Qnum x / Zpos (Qden x)) with (Qfloor x) by (destruct x; reflexivity).
  pose proof (Qfloor_le x). pose proof (Qlt_floor x) as Hlt.
  rewrite inject_Z_plus in Hlt. split; assumption.
Qed.

Lemma to_int_mono (x y : float) : (0 <= x)%Q -> (x <= y)%Q -> to_int x <= to_int y.
Proof.
  intros Hx Hxy. unfold to_int.
  assert (0 <= Qnum x) by (unfold Qle in Hx; simpl in Hx; lia).
  assert (Hy : (0 <= y)%Q) by lra.
  assert (0 <= Qnum y) by (unfold Qle in Hy; simpl in Hy; lia).
  rewrite !Z.quot_div_nonneg by lia.
  replace (Qnum x / Zpos (Qden x)) with (Qfloor x) by (destruct x; reflexivity).
  replace (Qnum y / Zpos (Qden y)) with (Qfloor y) by (destruct y; reflexivity).
  apply (Qfloor_resp_le x y Hxy).
Qed.

(** An integer below a float is below its truncation, and one above it is
    above its truncation. *)
Lemma to_int_ge (x : float) (n : Z) : (0 <= x)%Q -> (inject_Z n <= x)%Q -> n <= to_int x.
Proof.
  intros Hx Hn. destruct (to_int_floor x Hx) as [_ Hlt].
  assert (H : (inject_Z n < inject_Z (to_int x + 1))%Q)
    by (rewrite inject_Z_plus; inject_lra).
  rewrite <- Zlt_Qlt in H. lia.
Qed.

Lemma to_int_le (x : float) (n : Z) : (0 <= x)%Q -> (x <= inject_Z n)%Q -> to_int x <= n.
Proof.
  intros Hx Hn. destruct (to_int_floor x Hx) as [Hle _].
  assert (H : (inject_Z (to_int x) <= inject_Z n)%Q) by inject_lra.
  rewrite <- Zle_Qle in H. exact H.
Qed.

(** The relative error of [x * y], [x + y] and [a / b]. *)
Lemma mul_error (x y : float) :
  (0 < x * y)%Q ->
  ((1 - (1 # 9007199254740992)) * (x * y) <= Float64.mul x y <= (1 + (1 # 9007199254740992)) * (x * y))%Q.
Proof. apply round53_error. Qed.

Lemma add_error (x y : float) :
  (0 < x + y)%Q ->
  ((1 - (1 # 9007199254740992)) * (x + y) <= Float64.add x y <= (1 + (1 # 9007199254740992)) * (x + y))%Q.
Proof. apply round53_error. Qed.

Lemma int_truediv_error (a b : Z) :
  0 < a -> 0 < b ->
  ((1 - (1 # 9007199254740992)) * (inject_Z a / inject_Z b)
   <= int_truediv a b <= (1 + (1 # 9007199254740992)) * (inject_Z a / inject_Z b))%Q.
Proof.
  intros Ha Hb. apply round53_error.
  apply Qlt_shift_div_l.
  - change 0%Q with (inject_Z 0). rewrite <- Zlt_Qlt. exact Hb.
  - rewrite Qmult_0_l. change 0%Q with (inject_Z 0). rewrite <- Zlt_Qlt. exact Ha.
Qed.

(** The model computes the floats of the script as the Standard Library's
    binary64 operations do, at every size up to 300. *)
Lemma agrees_with_SpecFloat :
  (fun size : Z => SF2Q <$> SpecFloat_values size) <$> seqZ 1 300
  = (fun size : Z => Some <$> model_values size) <$> seqZ 1 300.
Proof. vm_compute. reflexivity. Qed.

End Float64Facts.

(* ===================================================================== *)
(** * Running the calls into the library *)
(* ===================================================================== *)

Section Running.
Context `{lib : Pillow}.

Lemma bind_ok {A B} (m : M A) (k : A -> M B) (w w' : world) (a : A) :
  m w = Ok a w' -> (x <- m;; k x) w = k a w'.
Proof. intros Hm. unfold bind. rewrite Hm. reflexivity. Qed.

Lemma bind_raise {A B} (m : M A) (k : A -> M B) (w w' : world) (e : exn) :
  m w = Raise e w' -> (x <- m;; k x) w = Raise e w'.
Proof. intros Hm. unfold bind. rewrite Hm. reflexivity. Qed.

Lemma quiet_here (n k : nat) : quiet n k -> (0 < k)%nat -> fault n = None.
Proof. intros Hq Hk. apply Hq. lia. Qed.

Lemma quiet_split (n k1 k2 : nat) :
  quiet n (k1 + k2) <-> quiet n k1 /\ quiet (n + k1) k2.
Proof.
  unfold quiet. split.
  - intros Hq. split; intros j Hj; apply Hq; lia.
  - intros [H1 H2] j Hj.
    destruct (decide (j < n + k1)%nat); [apply H1 | apply H2]; lia.
Qed.

Lemma quiet_shorter (n k k' : nat) : quiet n k -> (k' <= k)%nat -> quiet n k'.
Proof. intros Hq Hk j Hj. apply Hq. lia. Qed.

Lemma ncalls_rendered (w : world) (cs : list call) (im : image) :
  ncalls (rendered w cs im) = (ncalls w + length cs)%nat.
Proof. unfold ncalls, rendered. simpl. apply length_app. Qed.

Lemma insert_last {A} (l : list A) (x y : A) :
  <[length l := y]> (l ++ [x]) = l ++ [y].
Proof.
  replace (length l) with (length l + 0)%nat by lia.
  rewrite insert_app_r. reflexivity.
Qed.

Lemma lookup_last {A} (l : list A) (x : A) : (l ++ [x]) !! length l = Some x.
Proof. rewrite lookup_app_r by lia. rewrite Nat.sub_diag. reflexivity. Qed.

(** [Image.new] allocates the next object. *)
Lemma Image_new_ok (m : mode) (size : Z * Z) (c : color) (w : world) :
  fault (ncalls w) = None ->
  Image_new m size c w = Ok (length (heap w)) (rendered w [New m size c] (blank m size c)).
Proof. intros Hf. unfold Image_new, library. rewrite Hf. reflexivity. Qed.

Lemma Image_new_raise (m : mode) (size : Z * Z) (c : color) (w : world) (e : exn) :
  fault (ncalls w) = Some e -> Image_new m size c w = Raise e w.
Proof. intros Hf. unfold Image_new, library. rewrite Hf. reflexivity. Qed.

Lemma ImageDraw_Draw_ok (w : world) (cs : list call) (im : image) :
  fault (ncalls w + length cs) = None ->
  ImageDraw_Draw (length (heap w)) (rendered w cs im)
  = Ok (Draw_on (length (heap w))) (rendered w (cs ++ [Draw (length (heap w))]) im).
Proof.
  intros Hf. unfold ImageDraw_Draw, library.
  rewrite ncalls_rendered, Hf. unfold log_call, rendered. simpl.
  rewrite <- app_assoc. reflexivity.
Qed.

Lemma ImageDraw_Draw_raise (img : ref) (w : world) (cs : list call) (im : image) (e : exn) :
  fault (ncalls w + length cs) = Some e ->
  ImageDraw_Draw img (rendered w cs im) = Raise e (rendered w cs im).
Proof.
  intros Hf. unfold ImageDraw_Draw, library.
  rewrite ncalls_rendered, Hf. reflexivity.
Qed.

(** Drawing on the newest object repaints it and nothing else. *)
Lemma draw_shape_ok (s : shape) (w : world) (cs : list call) (im : image) :
  fault (ncalls w + length cs) = None ->
  draw_shape (Draw_on (length (heap w))) s (rendered w cs im)
  = Ok tt (rendered w (cs ++ [Drawn (length (heap w)) s]) (paint im s)).
Proof.
  intros Hf. unfold draw_shape, library.
  rewrite ncalls_rendered, Hf. simpl.
  rewrite lookup_last. simpl. rewrite insert_last.
  unfold log_call, rendered, set_heap. simpl.
  rewrite <- app_assoc. reflexivity.
Qed.

Lemma draw_shape_raise (d : ImageDraw) (s : shape) (w : world) (cs : list call)
    (im : image) (e : exn) :
  fault (ncalls w + length cs) = Some e ->
  draw_shape d s (rendered w cs im) = Raise e (rendered w cs im).
Proof.
  intros Hf. unfold draw_shape, library.
  rewrite ncalls_rendered, Hf. reflexivity.
Qed.

(** Painting keeps the buffer's mode and size. *)
Lemma paint_all_mode (ss : list shape) (im : image) :
  im_mode (foldl paint im ss) = im_mode im.
Proof. revert im. induction ss as [|s ss IH]; intros im; simpl; [|rewrite IH]; reflexivity. Qed.

Lemma paint_all_width (ss : list shape) (im : image) :
  im_width (foldl paint im ss) = im_width im.
Proof. revert im. induction ss as [|s ss IH]; intros im; simpl; [|rewrite IH]; reflexivity. Qed.

Lemma paint_all_height (ss : list shape) (im : image) :
  im_height (foldl paint im ss) = im_height im.
Proof. revert im. induction ss as [|s ss IH]; intros im; simpl; [|rewrite IH]; reflexivity. Qed.

(** The number of calls one rendering makes. *)
Lemma length_rendering (size : Z) (img : ref) :
  length (rendering size img) = if 32 <=? size then 8%nat else 7%nat.
Proof. unfold rendering, shapes. destruct (32 <=? size); reflexivity. Qed.

(** ** [create_house_with_sound_icon] *)

(** When the library does not fault, the renderer returns a new object
    holding [icon size], having made the calls [rendering size]. *)
Lemma render_ok (size : Z) (w : world) :
  quiet (ncalls w) (length (rendering size 0%nat)) ->
  create_house_with_sound_icon size w
  = Ok (length (heap w))
       (rendered w (rendering size (length (heap w))) (icon size)).
Proof.
  intros Hq. rewrite length_rendering in Hq.
  assert (Hq7 : quiet (ncalls w) 7)
    by (eapply quiet_shorter; [exact Hq | destruct (32 <=? size); lia]).
  unfold create_house_with_sound_icon.
  erewrite bind_ok by (apply Image_new_ok; apply Hq7; lia).
  erewrite bind_ok by (apply ImageDraw_Draw_ok; apply Hq7; simpl; lia).
  unfold arc, polygon, rectangle.
  do 5 (erewrite bind_ok by (apply draw_shape_ok; apply Hq7; simpl; lia)).
  unfold icon, rendering, shapes, sound_waves, roof, body, window, line_width,
    window_x1, window_y1, window_x2, window_y2, window_margin, window_size,
    body_x1, body_y1, body_x2, body_y2,
    scale_of, foreground, light_gray, transparent_white.
  destruct (32 <=? size) eqn:Hsz.
  - erewrite bind_ok by (apply draw_shape_ok; apply Hq; simpl; lia).
    reflexivity.
  - reflexivity.
Qed.

(** When a call of the renderer raises, the renderer raises the same
    exception: nothing in it catches one. *)
Lemma render_raises (size : Z) (w : world) (k : nat) (e : exn) :
  (k < length (rendering size 0%nat))%nat ->
  quiet (ncalls w) k ->
  fault (ncalls w + k) = Some e ->
  exists w', create_house_with_sound_icon size w = Raise e w'
             /\ stdout w' = stdout w /\ stderr w' = stderr w /\ files w' = files w.
Proof.
  intros Hk Hq Hf. rewrite length_rendering in Hk.
  unfold create_house_with_sound_icon.
  destruct k as [|k].
  { eexists. split.
    - apply bind_raise, Image_new_raise. rewrite <- Hf. f_equal. lia.
    - repeat split; reflexivity. }
  erewrite bind_ok by (apply Image_new_ok; apply Hq; lia).
  destruct k as [|k].
  { eexists. split.
    - apply bind_raise, ImageDraw_Draw_raise. exact Hf.
    - repeat split; reflexivity. }
  erewrite bind_ok by (apply ImageDraw_Draw_ok; apply Hq; simpl; lia).
  unfold arc, polygon, rectangle.
  do 5 (destruct k as [|k];
        [ eexists; split;
          [ apply bind_raise, draw_shape_raise; exact Hf
          | repeat split; reflexivity ]
        | erewrite bind_ok by (apply draw_shape_ok; apply Hq; simpl; lia) ]).
  destruct (32 <=? size); [|lia].
  destruct k as [|k]; [|lia].
  eexists. split.
  - apply bind_raise, draw_shape_raise. exact Hf.
  - repeat split; reflexivity.
Qed.

(** ** The loop of [create_ico] *)

Lemma length_renderings (sizes : list Z) (img img' : ref) :
  length (renderings sizes img) = length (renderings sizes img').
Proof.
  revert img img'. induction sizes as [|size rest IH]; intros img img'.
  - reflexivity.
  - cbn [renderings]. rewrite !length_app, !length_rendering. f_equal. apply IH.
Qed.

Lemma world_eq (c c' : list call) (h h' : list image) (o o' : list string)
    (r r' : list exn) (f f' : gmap string file) :
  c = c' -> h = h' -> o = o' -> r = r' -> f = f' ->
  Build_world c h o r f = Build_world c' h' o' r' f'.
Proof. intros -> -> -> -> ->. reflexivity. Qed.

Lemma world_ext (w w' : world) :
  calls w = calls w' -> heap w = heap w' -> stdout w = stdout w' ->
  stderr w = stderr w' -> files w = files w' -> w = w'.
Proof. destruct w, w'. simpl. apply world_eq. Qed.

(** Read a field of a world that was built step by step. *)
Ltac read_world :=
  cbn [calls heap stdout stderr files
       write_stdout write_stderr write_file log_call set_heap rendered].

(** The body of the loop, as [create_ico] writes it. *)
Local Abbreviation loop_body :=
  (fun (size : Z) (images_data : list ref) =>
     print ("  Creating " +:+ str size +:+ "x" +:+ str size +:+ " icon...");;
     img <- create_house_with_sound_icon size;;
     ret (images_data ++ [img])).

Lemma loop_ok (sizes : list Z) (images_data : list ref) (w : world) :
  quiet (ncalls w) (length (renderings sizes 0%nat)) ->
  for_each sizes loop_body images_data w
  = Ok (images_data ++ seq (length (heap w)) (length sizes))
       {| calls := calls w ++ renderings sizes (length (heap w));
          heap := heap w ++ (icon <$> sizes);
          stdout := stdout w ++ (creating <$> sizes);
          stderr := stderr w; files := files w |}.
Proof.
  revert images_data w.
  induction sizes as [|size rest IH]; intros images_data w Hq.
  - simpl. unfold ret. rewrite !app_nil_r. destruct w; reflexivity.
  - cbn [renderings] in Hq. rewrite length_app in Hq.
    apply quiet_split in Hq as [Hq1 Hq2].
    cbn [for_each].
    unfold bind at 1. unfold bind at 1. unfold print at 1.
    set (w0 := write_stdout _ w).
    assert (Hn0 : ncalls w0 = ncalls w) by reflexivity.
    unfold bind at 1.
    rewrite (render_ok size w0) by (rewrite Hn0; exact Hq1).
    unfold ret at 1.
    rewrite IH.
    2:{ rewrite ncalls_rendered, Hn0, (length_renderings rest 0%nat 1%nat).
        rewrite length_rendering in *. exact Hq2. }
    f_equal.
    + rewrite <- app_assoc. f_equal.
      unfold rendered, w0, write_stdout. cbn [heap length app seq].
      rewrite length_app, Nat.add_1_r. reflexivity.
    + unfold rendered, w0, write_stdout, creating.
      cbn [calls heap stdout stderr files renderings fmap list_fmap].
      apply world_eq; try reflexivity.
      * rewrite <- app_assoc, length_app, Nat.add_1_r. reflexivity.
      * rewrite <- app_assoc. reflexivity.
      * rewrite <- app_assoc. reflexivity.
Qed.

(** ** [create_ico] *)

Lemma lookup_all_appended {A} (l1 l2 : list A) :
  mapM (fun r => (l1 ++ l2) !! r) (seq (length l1) (length l2)) = Some l2.
Proof.
  revert l1. induction l2 as [|x l2 IH]; intros l1.
  - reflexivity.
  - cbn [length seq mapM].
    rewrite lookup_app_r, Nat.sub_diag by lia. cbn [lookup list_lookup mbind option_bind].
    replace (l1 ++ x :: l2) with ((l1 ++ [x]) ++ l2) by (rewrite <- app_assoc; reflexivity).
    replace (S (length l1)) with (length (l1 ++ [x])) by (rewrite length_app; simpl; lia).
    rewrite IH. reflexivity.
Qed.

(** The list comprehension over [img.width] and [img.height]. *)
Lemma comprehension_dimensions (refs : list ref) (ims : list image) (w : world) :
  mapM (fun r => heap w !! r) refs = Some ims ->
  comprehension (fun img => wd <- attr im_width img;; h <- attr im_height img;; ret (wd, h))
                refs w
  = Ok (dimensions <$> ims) w.
Proof.
  revert ims. induction refs as [|r refs IH]; intros ims Hm.
  - simpl in Hm. injection Hm as <-. reflexivity.
  - cbn [mapM] in Hm.
    destruct (heap w !! r) as [im|] eqn:Hr; [|discriminate].
    destruct (mapM (fun r => heap w !! r) refs) as [ims'|] eqn:Hrs; [|discriminate].
    injection Hm as <-.
    cbn [comprehension].
    erewrite bind_ok by (unfold bind, attr; rewrite !Hr; reflexivity).
    erewrite bind_ok by (apply IH; reflexivity).
    reflexivity.
Qed.

Lemma dimensions_icon (size : Z) : dimensions (icon size) = (size, size).
Proof.
  unfold dimensions, icon. rewrite paint_all_width, paint_all_height. reflexivity.
Qed.

Lemma save_ok (img : ref) (fp : string) (fmt : format)
    (append_images : option (list ref)) (sizes : option (list (Z * Z)))
    (im : image) (frames : option (list image)) (w : world) :
  fault (ncalls w) = None ->
  heap w !! img = Some im ->
  match append_images with
  | Some rs => Some <$> mapM (fun r => heap w !! r) rs
  | None => Some None
  end = Some frames ->
  save img fp fmt append_images sizes w
  = Ok tt (log_call (Save img fp fmt append_images sizes)
             (write_file fp {| file_format := fmt; file_image := im;
                               file_append_images := frames;
                               file_sizes := sizes |} w)).
Proof.
  intros Hf Him Hfr. unfold save, library. rewrite Hf, Him. cbn [mbind option_bind].
  rewrite Hfr. reflexivity.
Qed.

Lemma save_raise (img : ref) (fp : string) (fmt : format)
    (append_images : option (list ref)) (sizes : option (list (Z * Z)))
    (w : world) (e : exn) :
  fault (ncalls w) = Some e ->
  save img fp fmt append_images sizes w = Raise e w.
Proof. intros Hf. unfold save, library. rewrite Hf. reflexivity. Qed.

(** When the library does not fault, [create_ico] renders every size, in
    order, and asks for one ICO file of all the images. *)
Lemma create_ico_ok (output_path : string) (size : Z) (rest : list Z) (w : world) :
  quiet (ncalls w) (length (renderings (size :: rest) 0%nat) + 1) ->
  create_ico output_path (size :: rest) w = Ok tt (exported output_path size rest w).
Proof.
  intros Hq. apply quiet_split in Hq as [Hq1 Hq2].
  unfold create_ico.
  unfold bind at 1. unfold print at 1.
  set (w1 := write_stdout _ w).
  erewrite bind_ok by (apply loop_ok; exact Hq1).
  unfold bind at 1. unfold print at 1.
  match goal with |- context [write_stdout ?s ?w'] => set (w3 := write_stdout s w') end.
  cbn [length seq app].
  unfold index at 1. cbn [lookup list_lookup]. unfold bind at 1, ret at 1.
  assert (Hheap : heap w3 = heap w ++ (icon <$> size :: rest)) by reflexivity.
  assert (Hall : mapM (fun r => heap w3 !! r) (seq (length (heap w)) (length (size :: rest)))
                 = Some (icon <$> size :: rest)).
  { rewrite Hheap.
    replace (length (size :: rest)) with (length (icon <$> size :: rest))
      by apply length_fmap.
    apply lookup_all_appended. }
  change (length (heap w1)) with (length (heap w)).
  erewrite bind_ok by (apply comprehension_dimensions; exact Hall).
  assert (Hfirst : heap w3 !! length (heap w) = Some (icon size)).
  { rewrite Hheap. cbn [fmap list_fmap].
    rewrite lookup_app_r, Nat.sub_diag by lia. reflexivity. }
  assert (Hrest : mapM (fun r => heap w3 !! r) (seq (S (length (heap w))) (length rest))
                  = Some (icon <$> rest)).
  { rewrite Hheap. cbn [fmap list_fmap].
    replace (heap w ++ icon size :: (icon <$> rest))
      with ((heap w ++ [icon size]) ++ (icon <$> rest))
      by (rewrite <- app_assoc; reflexivity).
    replace (S (length (heap w))) with (length (heap w ++ [icon size]))
      by (rewrite length_app; simpl; lia).
    replace (length rest) with (length (icon <$> rest)) by apply length_fmap.
    apply lookup_all_appended. }
  cbn [drop].
  erewrite bind_ok.
  2:{ eapply save_ok.
      - apply Hq2. unfold w3, w1, ncalls. cbn [calls write_stdout].
        rewrite length_app.
        rewrite (length_renderings (size :: rest) (length _) 0%nat). lia.
      - exact Hfirst.
      - rewrite drop_0. exact (f_equal (fmap Some) Hrest). }
  unfold bind, print. f_equal.
  subst w3 w1.
  assert (Hdims : dimensions <$> (icon <$> size :: rest) = (fun s => (s, s)) <$> size :: rest).
  { rewrite <- list_fmap_compose. apply list_fmap_ext. intros _ s _.
    apply dimensions_icon. }
  rewrite Hdims, ?drop_0.
  apply world_ext; unfold exported; read_world.
  - unfold ico_save. cbn [length].
    replace (S (length rest) - 1)%nat with (length rest) by lia.
    rewrite <- app_assoc. reflexivity.
  - reflexivity.
  - unfold ico_stdout. rewrite <- !app_assoc. reflexivity.
  - reflexivity.
  - reflexivity.
Qed.

(** ** Exceptions in the loop and in [create_ico] *)

Lemma loop_raises (sizes : list Z) (images_data : list ref) (w : world)
    (k : nat) (e : exn) :
  (k < length (renderings sizes 0%nat))%nat ->
  quiet (ncalls w) k ->
  fault (ncalls w + k) = Some e ->
  exists w', for_each sizes loop_body images_data w = Raise e w'
             /\ stderr w' = stderr w.
Proof.
  revert images_data w k.
  induction sizes as [|size rest IH]; intros images_data w k Hk Hq Hf.
  - simpl in Hk. lia.
  - cbn [renderings] in Hk. rewrite length_app in Hk.
    cbn [for_each].
    unfold bind at 1. unfold bind at 1. unfold print at 1.
    set (w0 := write_stdout _ w).
    assert (Hn0 : ncalls w0 = ncalls w) by reflexivity.
    destruct (decide (k < length (rendering size 0%nat))%nat) as [Hlt|Hge].
    + destruct (render_raises size w0 k e Hlt) as (w' & Hr & _ & He & _).
      { rewrite Hn0. exact Hq. }
      { rewrite Hn0. exact Hf. }
      exists w'. split; [|exact He].
      unfold bind at 1. rewrite Hr. reflexivity.
    + unfold bind at 1.
      rewrite (render_ok size w0)
        by (rewrite Hn0; eapply quiet_shorter; [exact Hq | lia]).
      unfold ret at 1.
      set (w1 := rendered w0 _ _).
      assert (Hn1 : ncalls w1 = (ncalls w + length (rendering size 0%nat))%nat).
      { unfold w1. rewrite ncalls_rendered, Hn0, !length_rendering. reflexivity. }
      destruct (IH (images_data ++ [length (heap w0)]) w1
                   (k - length (rendering size 0%nat))%nat) as (w' & Hr & He).
      * rewrite (length_renderings rest 0%nat 1%nat). lia.
      * rewrite Hn1. intros j Hj. apply Hq. lia.
      * rewrite Hn1, <- Hf. f_equal. lia.
      * exists w'. split; [exact Hr | exact He].
Qed.

Lemma create_ico_raises (output_path : string) (size : Z) (rest : list Z)
    (w : world) (k : nat) (e : exn) :
  (k < length (renderings (size :: rest) 0%nat) + 1)%nat ->
  quiet (ncalls w) k ->
  fault (ncalls w + k) = Some e ->
  exists w', create_ico output_path (size :: rest) w = Raise e w'
             /\ stderr w' = stderr w.
Proof.
  intros Hk Hq Hf. unfold create_ico.
  unfold bind at 1. unfold print at 1.
  set (w1 := write_stdout _ w).
  assert (Hn1 : ncalls w1 = ncalls w) by reflexivity.
  destruct (decide (k < length (renderings (size :: rest) 0%nat))%nat) as [Hlt|Hge].
  - destruct (loop_raises (size :: rest) [] w1 k e Hlt) as (w' & Hr & He).
    { rewrite Hn1. exact Hq. }
    { rewrite Hn1. exact Hf. }
    exists w'. split; [|exact He].
    apply bind_raise. exact Hr.
  - assert (k = length (renderings (size :: rest) 0%nat)) as -> by lia.
    erewrite bind_ok by (apply loop_ok; rewrite Hn1; exact Hq).
    unfold bind at 1. unfold print at 1.
    match goal with |- context [write_stdout ?s ?w'] => set (w3 := write_stdout s w') end.
    cbn [length seq app].
    unfold index at 1. cbn [lookup list_lookup]. unfold bind at 1, ret at 1.
    assert (Hall : mapM (fun r => heap w3 !! r)
                     (seq (length (heap w)) (length (size :: rest)))
                   = Some (icon <$> size :: rest)).
    { change (heap w3) with (heap w ++ (icon <$> size :: rest)).
      replace (length (size :: rest)) with (length (icon <$> size :: rest))
        by apply length_fmap.
      apply lookup_all_appended. }
    change (length (heap w1)) with (length (heap w)).
    erewrite bind_ok by (apply comprehension_dimensions; exact Hall).
    exists w3. split; [|reflexivity].
    apply bind_raise, save_raise.
    rewrite <- Hf. f_equal. unfold w3, w1, ncalls.
    cbn [calls write_stdout]. rewrite length_app.
    rewrite (length_renderings (size :: rest) (length _) 0%nat). reflexivity.
Qed.

(** ** The [try] block of [__main__] *)

Lemma length_renderings_default (img : ref) :
  length (renderings default_sizes img) = 38%nat.
Proof.
  unfold default_sizes. cbn [renderings].
  rewrite !length_app, !length_rendering. reflexivity.
Qed.

Lemma main_body_ok (output_file png : string) (w : world) :
  quiet (ncalls w) main_calls ->
  main_body output_file png w = Ok tt (finished output_file png w).
Proof.
  intros Hq. unfold main_body.
  unfold bind at 1. unfold print at 1.
  set (w1 := write_stdout _ w).
  assert (Hn1 : ncalls w1 = ncalls w) by reflexivity.
  erewrite bind_ok.
  2:{ apply render_ok. rewrite Hn1, length_rendering.
      eapply quiet_shorter; [exact Hq | unfold main_calls; simpl; lia]. }
  set (w2 := rendered w1 _ _).
  erewrite bind_ok.
  2:{ eapply save_ok.
      - apply Hq. unfold w2. rewrite ncalls_rendered, Hn1, length_rendering.
        unfold main_calls. simpl. lia.
      - apply lookup_last.
      - reflexivity. }
  unfold bind at 1. unfold print at 1.
  match goal with |- context [write_stdout ?s ?w'] => set (w4 := write_stdout s w') end.
  unfold default_sizes at 1.
  erewrite bind_ok.
  2:{ apply create_ico_ok. fold default_sizes.
      rewrite length_renderings_default.
      assert (Hn4 : ncalls w4 = (ncalls w + 9)%nat).
      { unfold w4, w2, ncalls. cbn [calls write_stdout log_call write_file rendered].
        rewrite !length_app, length_rendering. simpl. lia. }
      rewrite Hn4. intros j Hj. apply Hq. unfold main_calls. lia. }
  unfold bind, print. f_equal.
  subst w4 w2 w1.
  assert (Hlen : length (heap w ++ [icon 48]) = S (length (heap w)))
    by (rewrite length_app; simpl; lia).
  apply world_ext; unfold finished, exported; read_world; fold default_sizes.
  - rewrite Hlen, <- !app_assoc. reflexivity.
  - rewrite <- !app_assoc. reflexivity.
  - rewrite <- !app_assoc. reflexivity.
  - reflexivity.
  - reflexivity.
Qed.

(** Whichever call raises first, the [try] block raises its exception. *)
Lemma main_body_raises (output_file png : string) (w : world) (k : nat) (e : exn) :
  (k < main_calls)%nat ->
  quiet (ncalls w) k ->
  fault (ncalls w + k) = Some e ->
  exists w', main_body output_file png w = Raise e w' /\ stderr w' = stderr w.
Proof.
  intros Hk Hq Hf. unfold main_calls in Hk. unfold main_body.
  unfold bind at 1. unfold print at 1.
  set (w1 := write_stdout _ w).
  assert (Hn1 : ncalls w1 = ncalls w) by reflexivity.
  destruct (decide (k < 8)%nat) as [Hlt|Hge].
  { destruct (render_raises 48 w1 k e) as (w' & Hr & _ & He & _).
    - rewrite length_rendering. simpl. exact Hlt.
    - rewrite Hn1. exact Hq.
    - rewrite Hn1. exact Hf.
    - exists w'. split; [|exact He]. apply bind_raise. exact Hr. }
  erewrite bind_ok.
  2:{ apply render_ok. rewrite Hn1, length_rendering.
      eapply quiet_shorter; [exact Hq | simpl; lia]. }
  set (w2 := rendered w1 _ _).
  assert (Hn2 : ncalls w2 = (ncalls w + 8)%nat).
  { unfold w2. rewrite ncalls_rendered, Hn1, length_rendering. reflexivity. }
  destruct (decide (k = 8)%nat) as [->|Hne].
  { exists w2. split; [|reflexivity].
    apply bind_raise, save_raise. rewrite Hn2. exact Hf. }
  erewrite bind_ok.
  2:{ eapply save_ok.
      - rewrite Hn2. apply Hq. lia.
      - apply lookup_last.
      - reflexivity. }
  unfold bind at 1. unfold print at 1.
  match goal with |- context [write_stdout ?s ?w'] => set (w4 := write_stdout s w') end.
  assert (Hn4 : ncalls w4 = (ncalls w + 9)%nat).
  { unfold w4, ncalls. cbn [calls write_stdout log_call write_file].
    rewrite length_app. change (length (calls w2)) with (ncalls w2).
    rewrite Hn2. cbn [length]. unfold ncalls. lia. }
  unfold default_sizes at 1.
  destruct (create_ico_raises output_file 16 [24; 32; 48; 256] w4 (k - 9)%nat e)
    as (w' & Hr & He).
  - fold default_sizes. rewrite length_renderings_default. lia.
  - rewrite Hn4. intros j Hj. apply Hq. lia.
  - rewrite Hn4, <- Hf. f_equal. lia.
  - exists w'. split; [|exact He]. apply bind_raise. exact Hr.
Qed.

End Running.

(* ===================================================================== *)
(** * The geometry of the house *)
(* ===================================================================== *)

Module Geometry.
Import Float64Facts.

(** The constants of the script are floats. *)
Lemma constants :
  of_int 2 = 2%Q /\ of_int 3 = 3%Q /\ of_int 7 = 7%Q /\ of_int 12 = 12%Q
  /\ of_int 19 = 19%Q /\ of_int 22 = 22%Q
  /\ literal 0.8 = (3602879701896397 # 4503599627370496)%Q.
Proof. vm_compute. repeat split; reflexivity. Qed.

(** Push an integer comparison to the rationals. *)
Ltac to_rationals :=
  first [rewrite Zle_Qle | rewrite Zlt_Qlt];
  rewrite ?inject_Z_plus, ?inject_Z_mult, ?inject_Z_opp, ?inject_Z_plus.

(** The corners of the body and of the window, up to rounding. *)
Lemma corners (size : Z) :
  0 < size ->
  let s := (inject_Z size / 24)%Q in
  near (scale_of size) s
  /\ near (body_x1 size) (7 * s) /\ near (body_y1 size) (12 * s)
  /\ near (body_x2 size) (19 * s) /\ near (body_y2 size) (22 * s)
  /\ near (window_x1 size) (9 * s) /\ near (window_y1 size) (14 * s)
  /\ near (window_x2 size) (12 * s) /\ near (window_y2 size) (17 * s).
Proof.
  intros Hsize s.
  destruct constants as (C2 & C3 & C7 & C12 & C19 & C22 & _).
  unfold near, window_x2, window_y2, window_x1, window_y1, window_size,
    window_margin, body_x1, body_y1, body_x2, body_y2, scale_of.
  rewrite C2, C3, C7, C12, C19, C22.
  pose proof (int_truediv_error size 24 Hsize eq_refl) as Hs.
  change (inject_Z 24) with 24%Q in Hs. fold s in Hs.
  assert (Hpos : (0 < s)%Q).
  { unfold s. apply Qlt_shift_div_l; [reflexivity|].
    rewrite Qmult_0_l. change 0%Q with (inject_Z 0). rewrite <- Zlt_Qlt. exact Hsize. }
  clearbody s.
  set (sc := int_truediv size 24) in *. clearbody sc.
  pose proof (mul_error 7%Q sc ltac:(lra)) as H7. set (bx1 := Float64.mul 7%Q sc) in *. clearbody bx1.
  pose proof (mul_error 12%Q sc ltac:(lra)) as H12. set (by1 := Float64.mul 12%Q sc) in *. clearbody by1.
  pose proof (mul_error 19%Q sc ltac:(lra)) as H19. set (bx2 := Float64.mul 19%Q sc) in *. clearbody bx2.
  pose proof (mul_error 22%Q sc ltac:(lra)) as H22. set (by2 := Float64.mul 22%Q sc) in *. clearbody by2.
  pose proof (mul_error sc 2%Q ltac:(lra)) as Hm. set (wm := Float64.mul sc 2%Q) in *. clearbody wm.
  pose proof (mul_error sc 3%Q ltac:(lra)) as Hw. set (ws := Float64.mul sc 3%Q) in *. clearbody ws.
  pose proof (add_error bx1 wm ltac:(lra)) as Hx1. set (wx1 := Float64.add bx1 wm) in *. clearbody wx1.
  pose proof (add_error by1 wm ltac:(lra)) as Hy1. set (wy1 := Float64.add by1 wm) in *. clearbody wy1.
  pose proof (add_error wx1 ws ltac:(lra)) as Hx2. set (wx2 := Float64.add wx1 ws) in *. clearbody wx2.
  pose proof (add_error wy1 ws ltac:(lra)) as Hy2. set (wy2 := Float64.add wy1 ws) in *. clearbody wy2.
  repeat split; lra.
Qed.

Lemma ideal_scale (size : Z) : (inject_Z size == 24 * (inject_Z size / 24))%Q.
Proof. field. Qed.

(** The stroke widths at the sizes of the script, and what rounding to
    nearest would give. *)
Example line_widths_of_the_sizes :
  line_width <$> [16; 24; 32; 48; 256] = [1; 1; 1; 1; 8]
  /\ rounded_line_width <$> [16; 24; 32; 48; 256] = [1; 1; 1; 2; 9].
Proof. vm_compute. split; reflexivity. Qed.

(** At size 32 the left edge of the window, [7 * scale + 2 * scale], is one
    unit in the last place below 12, which is [9 * scale]: it falls in pixel
    column 11. *)
Example window_corner_at_32 :
  window_x1 32 = (6755399441055743 # 562949953421312)%Q
  /\ (of_int 9 * scale_of 32)%float = 12%Q
  /\ to_int (window_x1 32) = 11.
Proof. vm_compute. repeat split; reflexivity. Qed.

(** The window lies within the body, as floats. *)
Lemma window_in_body (size : Z) :
  0 < size ->
  (0 < body_x1 size /\ body_x1 size <= window_x1 size
   /\ window_x1 size <= window_x2 size /\ window_x2 size <= body_x2 size)%Q
  /\ (0 < body_y1 size /\ body_y1 size <= window_y1 size
      /\ window_y1 size <= window_y2 size /\ window_y2 size <= body_y2 size)%Q.
Proof.
  intros Hsize.
  destruct (corners size Hsize) as (_ & Hbx1 & Hby1 & Hbx2 & Hby2 & Hx1 & Hy1 & Hx2 & Hy2).
  assert (Hz : (0 < inject_Z size)%Q)
    by (change 0%Q with (inject_Z 0); rewrite <- Zlt_Qlt; exact Hsize).
  pose proof (ideal_scale size) as Hi.
  unfold near in *. set (s := (inject_Z size / 24)%Q) in *. clearbody s.
  repeat split; inject_lra.
Qed.

(** The stroke width is about a thirtieth of the size. *)
Lemma line_width_bounds (size : Z) :
  0 < size -> 1 <= line_width size /\ 1000 * line_width size <= Z.max 1000 (34 * size).
Proof.
  intros Hsize. unfold line_width. split; [lia|].
  destruct constants as (_ & _ & _ & _ & _ & _ & C08).
  destruct (corners size Hsize) as (Hs & _).
  unfold near in Hs. unfold scale_of in *. rewrite C08.
  assert (Hz : (0 < inject_Z size)%Q)
    by (change 0%Q with (inject_Z 0); rewrite <- Zlt_Qlt; exact Hsize).
  pose proof (ideal_scale size) as Hi.
  set (s := (inject_Z size / 24)%Q) in *. clearbody s.
  set (sc := int_truediv size 24) in *. clearbody sc.
  pose proof (mul_error sc (3602879701896397 # 4503599627370496) ltac:(inject_lra)) as Hv.
  set (v := Float64.mul sc _) in *. clearbody v.
  assert (Hv0 : (0 <= v)%Q) by inject_lra.
  destruct (to_int_floor v Hv0) as [Hlo Hhi].
  assert (1000 * to_int v <= 34 * size); [|lia].
  to_rationals. inject_lra.
Qed.

(** In pixels, the window has room for its outline and more, and lies on
    the canvas. *)
Lemma window_pixels (size : Z) :
  32 <= size ->
  let bw := Z.max 1 (line_width size / 2) in
  (0 <= to_int (window_x1 size)
   /\ to_int (window_x1 size) + bw <= to_int (window_x2 size) - bw
   /\ to_int (window_x2 size) < size)
  /\ (0 <= to_int (window_y1 size)
      /\ to_int (window_y1 size) + bw <= to_int (window_y2 size) - bw
      /\ to_int (window_y2 size) < size).
Proof.
  intros Hsize bw.
  destruct (line_width_bounds size ltac:(lia)) as [Hlw1 Hlw2].
  destruct (corners size ltac:(lia)) as (_ & _ & _ & _ & _ & Hx1 & Hy1 & Hx2 & Hy2).
  assert (Hz : (32 <= inject_Z size)%Q)
    by (change 32%Q with (inject_Z 32); rewrite <- Zle_Qle; exact Hsize).
  pose proof (ideal_scale size) as Hi.
  unfold near in *. set (s := (inject_Z size / 24)%Q) in *. clearbody s.
  set (x1 := window_x1 size) in *. set (y1 := window_y1 size) in *.
  set (x2 := window_x2 size) in *. set (y2 := window_y2 size) in *.
  clearbody x1 y1 x2 y2.
  destruct (to_int_floor x1 ltac:(inject_lra)) as [Hx1a Hx1b].
  destruct (to_int_floor x2 ltac:(inject_lra)) as [Hx2a Hx2b].
  destruct (to_int_floor y1 ltac:(inject_lra)) as [Hy1a Hy1b].
  destruct (to_int_floor y2 ltac:(inject_lra)) as [Hy2a Hy2b].
  assert (A1 : 0 <= to_int x1 + 1) by (to_rationals; inject_lra).
  assert (A2 : 100 * to_int x1 <= 38 * size) by (to_rationals; inject_lra).
  assert (A3 : 49 * size < 100 * (to_int x2 + 1)) by (to_rationals; inject_lra).
  assert (A4 : 100 * to_int x2 <= 51 * size) by (to_rationals; inject_lra).
  assert (B1 : 0 <= to_int y1 + 1) by (to_rationals; inject_lra).
  assert (B2 : 100 * to_int y1 <= 59 * size) by (to_rationals; inject_lra).
  assert (B3 : 70 * size < 100 * (to_int y2 + 1)) by (to_rationals; inject_lra).
  assert (B4 : 100 * to_int y2 <= 71 * size) by (to_rationals; inject_lra).
  assert (A0 : 0 <= to_int x1) by (apply to_int_ge; inject_lra).
  assert (B0 : 0 <= to_int y1) by (apply to_int_ge; inject_lra).
  subst bw. set (lw := line_width size) in *. clearbody lw.
  assert (2 * (lw / 2) <= lw) by (apply Z.mul_div_le; lia).
  repeat split; lia.
Qed.

End Geometry.

(* ===================================================================== *)
(** * Pixels *)
(* ===================================================================== *)

Section Pixels.
Context `{lib : Pillow}.

(** A pixel of a painted image holds what the last primitive that wrote it
    wrote, or what it held before. *)
Lemma paint_all_pixel (ss : list shape) (im : image) (x y : Z) :
  im_data (foldl paint im ss) x y = default (im_data im x y) (last_stroke ss x y).
Proof.
  revert im. induction ss as [|s ss IH]; intros im.
  - reflexivity.
  - cbn [foldl last_stroke]. rewrite IH.
    destruct (last_stroke ss x y) as [ink|]; [reflexivity|].
    cbn [default paint im_data]. destruct (stroke s x y); reflexivity.
Qed.

Lemma last_stroke_app (l1 l2 : list shape) (x y : Z) :
  last_stroke (l1 ++ l2) x y
  = match last_stroke l2 x y with
    | Some ink => Some ink
    | None => last_stroke l1 x y
    end.
Proof.
  induction l1 as [|s l1 IH]; cbn [app last_stroke].
  - destruct (last_stroke l2 x y); reflexivity.
  - rewrite IH. destruct (last_stroke l2 x y); reflexivity.
Qed.

Lemma last_stroke_none (ss : list shape) (x y : Z) :
  (forall s, s ∈ ss -> stroke s x y = None) -> last_stroke ss x y = None.
Proof.
  induction ss as [|s ss IH]; intros Hnone; cbn [last_stroke]; [reflexivity|].
  rewrite IH by (intros s' Hs'; apply Hnone; right; exact Hs').
  apply Hnone. left.
Qed.

(** Whatever was written was written by one of the primitives. *)
Lemma last_stroke_elem (ss : list shape) (x y : Z) (ink : color) :
  last_stroke ss x y = Some ink -> exists s, s ∈ ss /\ stroke s x y = Some ink.
Proof.
  induction ss as [|s ss IH]; cbn [last_stroke]; [discriminate|].
  destruct (last_stroke ss x y) as [ink'|] eqn:Hl.
  - intros [= <-]. destruct (IH eq_refl) as (s' & Hs' & Hst).
    exists s'. split; [right; exact Hs' | exact Hst].
  - intros Hs. exists s. split; [left | exact Hs].
Qed.

(** A primitive shows wherever no later one writes. *)
Lemma last_stroke_occludes (before after : list shape) (s : shape) (x y : Z)
    (ink : color) :
  stroke s x y = Some ink ->
  (forall s', s' ∈ after -> stroke s' x y = None) ->
  last_stroke (before ++ s :: after) x y = Some ink.
Proof.
  intros Hs Hafter. rewrite last_stroke_app. cbn [last_stroke].
  rewrite (last_stroke_none after x y Hafter), Hs. reflexivity.
Qed.

Lemma getpixel_bounds (im : image) (x y : Z) :
  is_Some (getpixel im x y) <-> 0 <= x < im_width im /\ 0 <= y < im_height im.
Proof.
  unfold getpixel, in_bounds.
  destruct (0 <=? x) eqn:H1, (x <? im_width im) eqn:H2, (0 <=? y) eqn:H3,
    (y <? im_height im) eqn:H4; cbn [andb];
    split; try (intros [? [=]]); try (intros _; eexists; reflexivity); lia.
Qed.

Lemma getpixel_inside (im : image) (x y : Z) :
  0 <= x < im_width im -> 0 <= y < im_height im ->
  getpixel im x y = Some (im_data im x y).
Proof.
  intros Hx Hy. unfold getpixel, in_bounds.
  destruct (0 <=? x) eqn:H1, (x <? im_width im) eqn:H2, (0 <=? y) eqn:H3,
    (y <? im_height im) eqn:H4; cbn [andb]; try reflexivity; lia.
Qed.

Lemma getpixel_data (im : image) (x y : Z) (c : color) :
  getpixel im x y = Some c -> im_data im x y = c.
Proof. unfold getpixel. destruct (in_bounds im x y); congruence. Qed.

(** ** Reading the calls of a rendering *)

Lemma calls_since_rendered (w : world) (cs : list call) (im : image) :
  calls_since w (rendered w cs im) = cs.
Proof. unfold calls_since, ncalls, rendered. cbn [calls]. apply drop_app_length. Qed.

Lemma drawn_on_drawn (img : ref) (ss : list shape) :
  drawn_on img (Drawn img <$> ss) = ss.
Proof.
  unfold drawn_on. induction ss as [|s ss IH]; [reflexivity|].
  cbn [fmap list_fmap omap list_omap]. rewrite decide_True by reflexivity.
  f_equal. exact IH.
Qed.

Lemma drawn_on_rendering (size : Z) (img : ref) :
  drawn_on img (rendering size img) = shapes size.
Proof. unfold rendering. apply drawn_on_drawn. Qed.

Lemma created_drawn (img : ref) (ss : list shape) : created (Drawn img <$> ss) = [].
Proof. unfold created. induction ss as [|s ss IH]; [reflexivity | exact IH]. Qed.

Lemma saved_drawn (img : ref) (ss : list shape) : saved (Drawn img <$> ss) = [].
Proof. unfold saved. induction ss as [|s ss IH]; [reflexivity | exact IH]. Qed.

Lemma created_rendering (size : Z) (img : ref) :
  created (rendering size img) = [(size, size)].
Proof.
  unfold rendering. change (created (?a :: ?b :: ?l)) with ((size, size) :: created l).
  rewrite created_drawn. reflexivity.
Qed.

Lemma saved_rendering (size : Z) (img : ref) : saved (rendering size img) = [].
Proof.
  unfold rendering. change (saved (?a :: ?b :: ?l)) with (saved l).
  apply saved_drawn.
Qed.

(** One run of the renderer, when the library does not fault. *)
Lemma render_run (size : Z) (w : world) :
  quiet (ncalls w) (length (rendering size 0%nat)) ->
  exists img w',
    create_house_with_sound_icon size w = Ok img w'
    /\ heap w' !! img = Some (icon size)
    /\ img = length (heap w)
    /\ calls_since w w' = rendering size img
    /\ drawn_on img (calls_since w w') = shapes size.
Proof.
  intros Hq. exists (length (heap w)), (rendered w (rendering size (length (heap w))) (icon size)).
  split; [apply render_ok; exact Hq|].
  split; [apply lookup_last|].
  split; [reflexivity|].
  rewrite calls_since_rendered.
  split; [reflexivity | apply drawn_on_rendering].
Qed.

End Pixels.

(** The reference rasteriser does what a rasteriser is assumed to do. *)
Lemma reference_rasteriser : @Rasteriser reference.
Proof.
  split.
  - intros s x y ink. destruct s as [xy a b fill wd | xy fill outline | xy fill outline wd];
      cbn [stroke reference reference_stroke inks].
    + unfold arc_stroke.
      destruct xy as [|? [|? [|? [|? [|? ?]]]]]; try discriminate.
      destruct (_ && _); [|discriminate]. intros [= <-]. left.
    + unfold polygon_stroke. destruct (foldr _ _ _); [|discriminate].
      intros [= <-]. left.
    + unfold rectangle_stroke.
      destruct xy as [|? [|? [|? [|? [|? ?]]]]]; try discriminate.
      destruct (_ && _); [|discriminate].
      destruct (_ && _); intros [= <-]; [left | right; left].
  - intros x1 y1 x2 y2 fill outline wd x y ink.
    cbn [stroke reference reference_stroke rectangle_stroke].
    destruct (to_int x1 <=? x) eqn:H1, (x <=? to_int x2) eqn:H2,
      (to_int y1 <=? y) eqn:H3, (y <=? to_int y2) eqn:H4;
      cbn [andb]; try discriminate.
    intros _. lia.
  - intros x1 y1 x2 y2 fill outline wd x y Hb Hx Hy.
    cbn [stroke reference reference_stroke rectangle_stroke].
    destruct (to_int x1 + border wd <=? x) eqn:H5; [|lia].
    destruct (x <=? to_int x2 - border wd) eqn:H6; [|lia].
    destruct (to_int y1 + border wd <=? y) eqn:H7; [|lia].
    destruct (y <=? to_int y2 - border wd) eqn:H8; [|lia].
    destruct (to_int x1 <=? x) eqn:H1; [|lia].
    destruct (x <=? to_int x2) eqn:H2; [|lia].
    destruct (to_int y1 <=? y) eqn:H3; [|lia].
    destruct (y <=? to_int y2) eqn:H4; [|lia].
    reflexivity.
Qed.

(* ===================================================================== *)
(** * The renderer *)
(* ===================================================================== *)

Section Renderer.
Context `{lib : Pillow}.

(** C3: for every positive [size], when the library does not fault,
    [create_house_with_sound_icon(size)] returns an image in a mode with an
    alpha channel, of exactly [size] x [size] pixels; it is the canvas
    [Image.new] created, every pixel of which had alpha 0, with the
    primitives drawn on it afterwards. *)
Theorem canvas_is_square_and_transparent (size : Z) (w : world) :
  0 < size ->
  quiet (ncalls w) (length (rendering size 0%nat)) ->
  exists (img : ref) (w' : world) (im : image) (ss : list shape),
    create_house_with_sound_icon size w = Ok img w'
    /\ heap w' !! img = Some im
    /\ has_alpha (im_mode im) = true
    /\ im_width im = size /\ im_height im = size
    /\ pixel_count im = size * size
    /\ (forall x y, is_Some (getpixel im x y) <-> 0 <= x < size /\ 0 <= y < size)
    /\ calls_since w w'
       = New RGBA (size, size) (255, 255, 255, 0) :: Draw img :: (Drawn img <$> ss)
    /\ im = foldl paint (blank RGBA (size, size) (255, 255, 255, 0)) ss
    /\ (forall x y, 0 <= x < size -> 0 <= y < size ->
          alpha <$> getpixel (blank RGBA (size, size) (255, 255, 255, 0)) x y
          = Some 0).
Proof.
  intros Hsize Hq.
  destruct (render_run size w Hq) as (img & w' & Hrun & Him & _ & Hcalls & _).
  exists img, w', (icon size), (shapes size).
  assert (Hw : im_width (icon size) = size)
    by (unfold icon; rewrite paint_all_width; reflexivity).
  assert (Hh : im_height (icon size) = size)
    by (unfold icon; rewrite paint_all_height; reflexivity).
  split; [exact Hrun|]. split; [exact Him|].
  split; [unfold icon; rewrite paint_all_mode; reflexivity|].
  split; [exact Hw|]. split; [exact Hh|].
  split; [unfold pixel_count; rewrite Hw, Hh; f_equal; lia|].
  split; [intros x y; rewrite getpixel_bounds, Hw, Hh; reflexivity|].
  split; [exact Hcalls|]. split; [reflexivity|].
  intros x y Hx Hy. rewrite getpixel_inside by assumption. reflexivity.
Qed.

(** C9: the canvas is created with every pixel [(255, 255, 255, 0)]:
    alpha 0 over white.  Flattened without its alpha channel it is white,
    not black, and so is every pixel of the returned image that no
    primitive wrote. *)
Theorem canvas_is_transparent_white (size : Z) (w : world) :
  0 < size ->
  quiet (ncalls w) (length (rendering size 0%nat)) ->
  exists (img : ref) (w' : world) (im canvas : image) (ss : list shape),
    create_house_with_sound_icon size w = Ok img w'
    /\ heap w' !! img = Some im
    /\ head (calls_since w w') = Some (New RGBA (size, size) (255, 255, 255, 0))
    /\ canvas = blank RGBA (size, size) (255, 255, 255, 0)
    /\ im = foldl paint canvas ss
    /\ (forall x y, 0 <= x < size -> 0 <= y < size ->
          getpixel canvas x y = Some (255, 255, 255, 0)
          /\ flatten canvas x y = Some (255, 255, 255)
          /\ flatten canvas x y <> Some (0, 0, 0))
    /\ (forall x y, 0 <= x < size -> 0 <= y < size ->
          last_stroke ss x y = None ->
          getpixel im x y = Some (255, 255, 255, 0)
          /\ flatten im x y = Some (255, 255, 255)).
Proof.
  intros Hsize Hq.
  destruct (render_run size w Hq) as (img & w' & Hrun & Him & _ & Hcalls & _).
  exists img, w', (icon size), (blank RGBA (size, size) (255, 255, 255, 0)), (shapes size).
  split; [exact Hrun|]. split; [exact Him|].
  split; [rewrite Hcalls; reflexivity|].
  split; [reflexivity|]. split; [reflexivity|].
  split.
  - intros x y Hx Hy. unfold flatten.
    rewrite getpixel_inside by assumption.
    split; [reflexivity|]. split; [reflexivity | discriminate].
  - intros x y Hx Hy Hnone. unfold flatten.
    rewrite getpixel_inside
      by (unfold icon; rewrite ?paint_all_width, ?paint_all_height; assumption).
    unfold icon. rewrite paint_all_pixel, Hnone. split; reflexivity.
Qed.

(** C6: the primitives are drawn in this order: the three arcs (outer,
    middle, inner), each from -10 to 100 degrees; the roof, a polygon with
    vertices (9, 2), (19, 12), (7, 12) scaled by [size / 24]; the body, a
    rectangle from (7, 12) to (19, 22) scaled; and, when [size >= 32], the
    window.  Every pixel of the result holds what the last primitive that
    wrote it wrote, so a later primitive hides an earlier one. *)
Theorem primitives_in_order (size : Z) (w : world) :
  0 < size ->
  quiet (ncalls w) (length (rendering size 0%nat)) ->
  exists (img : ref) (w' : world) (im : image),
    create_house_with_sound_icon size w = Ok img w'
    /\ heap w' !! img = Some im
    /\ let scale := int_truediv size 24 in
       let width := Z.max 1 (to_int (scale * literal 0.8)%float) in
       let drawn := drawn_on img (calls_since w w') in
       drawn
       = [Arc [literal 0.5 * scale; of_int 1 * scale;
               literal 7.5 * scale; literal 7.5 * scale]%float
              (-10) 100 foreground width;
          Arc [of_int 2 * scale; literal 2.5 * scale;
               of_int 7 * scale; literal 7.5 * scale]%float
              (-10) 100 foreground width;
          Arc [of_int 4 * scale; literal 4.5 * scale;
               of_int 7 * scale; literal 7.5 * scale]%float
              (-10) 100 foreground width;
          Polygon [(of_int 9 * scale, of_int 2 * scale);
                   (of_int 19 * scale, of_int 12 * scale);
                   (of_int 7 * scale, of_int 12 * scale)]%float
                  foreground foreground;
          Rectangle [of_int 7 * scale; of_int 12 * scale;
                     of_int 19 * scale; of_int 22 * scale]%float
                    foreground foreground None]
         ++ (if 32 <=? size then [window size] else [])
       /\ calls_since w w'
          = New RGBA (size, size) transparent_white :: Draw img :: (Drawn img <$> drawn)
       /\ (forall x y,
             im_data im x y = default transparent_white (last_stroke drawn x y))
       /\ (forall before s after x y ink,
             drawn = before ++ s :: after ->
             stroke s x y = Some ink ->
             (forall s', s' ∈ after -> stroke s' x y = None) ->
             im_data im x y = ink).
Proof.
  intros Hsize Hq.
  destruct (render_run size w Hq) as (img & w' & Hrun & Him & _ & Hcalls & Hdrawn).
  exists img, w', (icon size).
  split; [exact Hrun|]. split; [exact Him|].
  cbv zeta. rewrite Hdrawn.
  split; [reflexivity|].
  split; [exact Hcalls|].
  split.
  - intros x y. unfold icon. rewrite paint_all_pixel. reflexivity.
  - intros before s after x y ink Hsplit Hs Hafter.
    unfold icon. rewrite paint_all_pixel, Hsplit.
    rewrite (last_stroke_occludes before after s x y ink Hs Hafter). reflexivity.
Qed.

(** The product the stroke width is taken from is not negative. *)
Lemma stroke_product_nonneg (size : Z) :
  0 < size -> (0 <= (int_truediv size 24 * literal 0.8)%float)%Q.
Proof.
  intros Hsize.
  destruct Geometry.constants as (_ & _ & _ & _ & _ & _ & C08).
  destruct (Geometry.corners size Hsize) as (Hs & _).
  unfold near, scale_of in Hs. rewrite C08.
  assert (Hz : (0 < inject_Z size)%Q)
    by (change 0%Q with (inject_Z 0); rewrite <- Zlt_Qlt; exact Hsize).
  pose proof (Geometry.ideal_scale size) as Hi.
  set (s := (inject_Z size / 24)%Q) in *. clearbody s.
  set (sc := int_truediv size 24) in *. clearbody sc.
  pose proof (Float64Facts.mul_error sc (3602879701896397 # 4503599627370496)
                ltac:(Float64Facts.inject_lra)) as Hv.
  Float64Facts.inject_lra.
Qed.

(** C1, amended: each of the three arcs is stroked with a width of
    [max(1, int(size / 24 * 0.8))] pixels, where [int] truncates: it is the
    largest integer not above the product. *)
Theorem arcs_stroked_with_truncated_width (size : Z) (w : world) :
  0 < size ->
  quiet (ncalls w) (length (rendering size 0%nat)) ->
  exists (img : ref) (w' : world),
    create_house_with_sound_icon size w = Ok img w'
    /\ let product := (int_truediv size 24 * literal 0.8)%float in
       let width := Z.max 1 (to_int product) in
       arc_widths (drawn_on img (calls_since w w')) = [width; width; width]
       /\ (inject_Z (to_int product) <= product < inject_Z (to_int product) + 1)%Q.
Proof.
  intros Hsize Hq.
  destruct (render_run size w Hq) as (img & w' & Hrun & _ & _ & _ & Hdrawn).
  exists img, w'. split; [exact Hrun|].
  cbv zeta. rewrite Hdrawn. split.
  - unfold shapes. destruct (32 <=? size); reflexivity.
  - apply Float64Facts.to_int_floor, stroke_product_nonneg, Hsize.
Qed.

(** Below 32, every primitive is given the foreground colour only. *)
Lemma small_icon_inks (size : Z) (s : shape) (ink : color) :
  size < 32 -> s ∈ shapes size -> ink ∈ inks s -> ink = foreground.
Proof.
  intros Hsize Hs Hink. unfold shapes in Hs.
  destruct (32 <=? size) eqn:Hge; [lia|].
  rewrite app_nil_r in Hs. unfold sound_waves, roof, body in Hs.
  apply list_elem_of_In in Hs. cbn [app In] in Hs.
  apply list_elem_of_In in Hink.
  destruct Hs as [<-|[<-|[<-|[<-|[<-|[]]]]]]; cbn [inks In] in Hink;
    intuition congruence.
Qed.

(** The window is the one primitive given the light gray. *)
Lemma light_gray_is_window (size : Z) (s : shape) :
  s ∈ shapes size -> light_gray ∈ inks s -> 32 <= size /\ s = window size.
Proof.
  intros Hs Hink. unfold shapes in Hs.
  assert (Hne : light_gray <> foreground) by discriminate.
  destruct (32 <=? size) eqn:Hge.
  - split; [lia|]. unfold sound_waves, roof, body in Hs.
    apply list_elem_of_In in Hs. cbn [app In] in Hs.
    apply list_elem_of_In in Hink.
    destruct Hs as [<-|[<-|[<-|[<-|[<-|[<-|[]]]]]]]; cbn [inks In] in Hink;
      try reflexivity; intuition congruence.
  - exfalso. apply Hne. apply (small_icon_inks size s); try assumption; [lia|].
    unfold shapes. rewrite Hge. exact Hs.
Qed.

(** C2: the light-gray window is drawn if and only if [size >= 32].  It
    is then the rectangle from [(x1, y1)] to [(x2, y2)], where
    [x1 = 7 * scale + 2 * scale], [y1 = 12 * scale + 2 * scale],
    [x2 = x1 + 3 * scale] and [y2 = y1 + 3 * scale], filled with the opaque
    light gray and outlined in the foreground colour with width
    [max(1, line_width // 2)].  With a rasteriser as assumed, the image has
    no light-gray pixel when [size < 32] and has one when [size >= 32]. *)
Theorem window_from_32 `{!Rasteriser} (size : Z) (w : world) :
  0 < size ->
  quiet (ncalls w) (length (rendering size 0%nat)) ->
  exists (img : ref) (w' : world) (im : image),
    create_house_with_sound_icon size w = Ok img w'
    /\ heap w' !! img = Some im
    /\ let scale := int_truediv size 24 in
       let line_width := Z.max 1 (to_int (scale * literal 0.8)%float) in
       let body_x1 := (of_int 7 * scale)%float in
       let body_y1 := (of_int 12 * scale)%float in
       let window_margin := (scale * of_int 2)%float in
       let window_size := (scale * of_int 3)%float in
       let window_x1 := (body_x1 + window_margin)%float in
       let window_y1 := (body_y1 + window_margin)%float in
       let window_x2 := (window_x1 + window_size)%float in
       let window_y2 := (window_y1 + window_size)%float in
       with_ink light_gray (drawn_on img (calls_since w w'))
       = (if 32 <=? size
          then [Rectangle [window_x1; window_y1; window_x2; window_y2]
                          (200, 200, 200, 255) (40, 40, 40, 255)
                          (Some (Z.max 1 (line_width / 2)))]
          else [])
    /\ (size < 32 -> forall x y, getpixel im x y <> Some light_gray)
    /\ (32 <= size -> exists x y, getpixel im x y = Some light_gray).
Proof.
  intros Hsize Hq.
  destruct (render_run size w Hq) as (img & w' & Hrun & Him & _ & _ & Hdrawn).
  exists img, w', (icon size).
  split; [exact Hrun|]. split; [exact Him|].
  cbv zeta. rewrite Hdrawn.
  split; [|split].
  - unfold shapes. destruct (32 <=? size); reflexivity.
  - intros Hsmall x y Hpix.
    apply getpixel_data in Hpix. unfold icon in Hpix.
    rewrite paint_all_pixel in Hpix.
    destruct (last_stroke (shapes size) x y) as [ink|] eqn:Hlast;
      simpl in Hpix; [|discriminate].
    subst ink.
    destruct (last_stroke_elem _ _ _ _ Hlast) as (s & Hs & Hstroke).
    apply stroke_ink in Hstroke.
    pose proof (small_icon_inks size s light_gray Hsmall Hs Hstroke).
    discriminate.
  - intros Hbig.
    destruct (Geometry.window_pixels size Hbig) as [(Hx0 & Hx & Hx') (Hy0 & Hy & Hy')].
    set (bw := Z.max 1 (line_width size / 2)) in *.
    assert (Hbw : 1 <= bw) by apply Z.le_max_l.
    exists (to_int (window_x1 size) + bw), (to_int (window_y1 size) + bw).
    assert (Hfill : stroke (window size) (to_int (window_x1 size) + bw)
                      (to_int (window_y1 size) + bw) = Some light_gray).
    { unfold window. fold bw. apply rectangle_filled; simpl border; clearbody bw; lia. }
    clearbody bw.
    rewrite getpixel_inside
      by (unfold icon; rewrite ?paint_all_width, ?paint_all_height; cbn; lia).
    f_equal. unfold icon. rewrite paint_all_pixel.
    unfold shapes. destruct (32 <=? size) eqn:Hge; [|lia].
    rewrite app_assoc.
    rewrite (last_stroke_occludes _ [] (window size) _ _ light_gray);
      [reflexivity | exact Hfill | intros s' Hs'; inversion Hs'].
Qed.

(** C10: for [size >= 32] the corners of the window lie between the
    corners of the body, as floats and as pixels; they are (9, 14) and
    (12, 17) scaled by [size / 24], up to rounding.  With a rasteriser as
    assumed, every light-gray pixel of the image lies within the body. *)
Theorem window_within_body `{!Rasteriser} (size : Z) (w : world) :
  32 <= size ->
  quiet (ncalls w) (length (rendering size 0%nat)) ->
  exists (img : ref) (w' : world) (im : image),
    create_house_with_sound_icon size w = Ok img w'
    /\ heap w' !! img = Some im
    /\ body size ∈ drawn_on img (calls_since w w')
    /\ window size ∈ drawn_on img (calls_since w w')
    /\ (body_x1 size <= window_x1 size /\ window_x1 size <= window_x2 size
        /\ window_x2 size <= body_x2 size)%Q
    /\ (body_y1 size <= window_y1 size /\ window_y1 size <= window_y2 size
        /\ window_y2 size <= body_y2 size)%Q
    /\ (to_int (body_x1 size) <= to_int (window_x1 size)
        /\ to_int (window_x2 size) <= to_int (body_x2 size)
        /\ to_int (body_y1 size) <= to_int (window_y1 size)
        /\ to_int (window_y2 size) <= to_int (body_y2 size))
    /\ (let s := (inject_Z size / 24)%Q in
        near (window_x1 size) (9 * s) /\ near (window_y1 size) (14 * s)
        /\ near (window_x2 size) (12 * s) /\ near (window_y2 size) (17 * s)
        /\ near (body_x1 size) (7 * s) /\ near (body_y1 size) (12 * s)
        /\ near (body_x2 size) (19 * s) /\ near (body_y2 size) (22 * s))
    /\ (forall x y, getpixel im x y = Some light_gray ->
          to_int (body_x1 size) <= x <= to_int (body_x2 size)
          /\ to_int (body_y1 size) <= y <= to_int (body_y2 size)).
Proof.
  intros Hsize Hq.
  destruct (render_run size w Hq) as (img & w' & Hrun & Him & _ & _ & Hdrawn).
  destruct (Geometry.window_in_body size ltac:(lia))
    as [(Hbx0 & Hx1 & Hx12 & Hx2) (Hby0 & Hy1 & Hy12 & Hy2)].
  destruct (Geometry.corners size ltac:(lia))
    as (_ & Nbx1 & Nby1 & Nbx2 & Nby2 & Nx1 & Ny1 & Nx2 & Ny2).
  assert (Tx1 : to_int (body_x1 size) <= to_int (window_x1 size))
    by (apply Float64Facts.to_int_mono; lra).
  assert (Tx2 : to_int (window_x2 size) <= to_int (body_x2 size))
    by (apply Float64Facts.to_int_mono; lra).
  assert (Ty1 : to_int (body_y1 size) <= to_int (window_y1 size))
    by (apply Float64Facts.to_int_mono; lra).
  assert (Ty2 : to_int (window_y2 size) <= to_int (body_y2 size))
    by (apply Float64Facts.to_int_mono; lra).
  exists img, w', (icon size).
  split; [exact Hrun|]. split; [exact Him|].
  rewrite Hdrawn.
  split; [|split].
  { unfold shapes. set_solver. }
  { unfold shapes. destruct (32 <=? size) eqn:Hge; [set_solver | lia]. }
  split; [tauto|]. split; [tauto|]. split; [tauto|].
  split; [cbv zeta; tauto|].
  intros x y Hpix.
  apply getpixel_data in Hpix. unfold icon in Hpix.
  rewrite paint_all_pixel in Hpix.
  destruct (last_stroke (shapes size) x y) as [ink|] eqn:Hlast;
    simpl in Hpix; [|discriminate].
  subst ink.
  destruct (last_stroke_elem _ _ _ _ Hlast) as (s & Hs & Hstroke).
  pose proof (stroke_ink _ _ _ _ Hstroke) as Hink.
  destruct (light_gray_is_window size s Hs Hink) as [_ ->].
  unfold window in Hstroke. apply rectangle_within in Hstroke. lia.
Qed.

End Renderer.

(** What is drawn does not depend on which library draws it, as long as the
    two rasterise alike. *)
Lemma last_stroke_ext (lib1 lib2 : Pillow) (ss : list shape) (x y : Z) :
  (forall s x y, @stroke lib1 s x y = @stroke lib2 s x y) ->
  @last_stroke lib1 ss x y = @last_stroke lib2 ss x y.
Proof.
  intros Hext. induction ss as [|s ss IH]; cbn [last_stroke]; [reflexivity|].
  rewrite IH, Hext. reflexivity.
Qed.

(** C8: two runs of the renderer at the same size, from any two states of
    the world and whichever calls of the library would fault elsewhere, draw
    the same primitives and return images that agree in mode, in size and
    pixel for pixel. *)
Theorem rendering_is_deterministic (lib1 lib2 : Pillow) (size : Z) (w1 w2 : world) :
  0 < size ->
  (forall s x y, @stroke lib1 s x y = @stroke lib2 s x y) ->
  @quiet lib1 (ncalls w1) (length (rendering size 0%nat)) ->
  @quiet lib2 (ncalls w2) (length (rendering size 0%nat)) ->
  exists (img1 img2 : ref) (w1' w2' : world) (im1 im2 : image),
    @create_house_with_sound_icon lib1 size w1 = Ok img1 w1'
    /\ @create_house_with_sound_icon lib2 size w2 = Ok img2 w2'
    /\ heap w1' !! img1 = Some im1
    /\ heap w2' !! img2 = Some im2
    /\ drawn_on img1 (calls_since w1 w1') = drawn_on img2 (calls_since w2 w2')
    /\ im_mode im1 = im_mode im2
    /\ dimensions im1 = dimensions im2
    /\ (forall x y, getpixel im1 x y = getpixel im2 x y)
    /\ (lib1 = lib2 -> im1 = im2).
Proof.
  intros Hsize Hext Hq1 Hq2.
  destruct (@render_run lib1 size w1 Hq1) as (img1 & w1' & Hrun1 & Him1 & _ & _ & Hd1).
  destruct (@render_run lib2 size w2 Hq2) as (img2 & w2' & Hrun2 & Him2 & _ & _ & Hd2).
  exists img1, img2, w1', w2', (@icon lib1 size), (@icon lib2 size).
  split; [exact Hrun1|]. split; [exact Hrun2|].
  split; [exact Him1|]. split; [exact Him2|].
  split; [rewrite Hd1, Hd2; reflexivity|].
  split; [unfold icon; rewrite !paint_all_mode; reflexivity|].
  split; [rewrite !dimensions_icon; reflexivity|].
  split.
  - intros x y. unfold getpixel, in_bounds, icon.
    rewrite !paint_all_width, !paint_all_height, !paint_all_pixel.
    rewrite (last_stroke_ext lib1 lib2 _ x y Hext). reflexivity.
  - intros ->. reflexivity.
Qed.

(* ===================================================================== *)
(** * The exporter *)
(* ===================================================================== *)

(** What [create_ico] prints for the sizes of the script. *)
Example stdout_of_create_ico :
  ico_stdout "src/app.ico" default_sizes
  = ["Generating icon at multiple resolutions...";
     "  Creating 16x16 icon..."; "  Creating 24x24 icon...";
     "  Creating 32x32 icon..."; "  Creating 48x48 icon...";
     "  Creating 256x256 icon..."; "Saving ICO file to src/app.ico...";
     "Successfully created src/app.ico"; "Number of sizes: 5";
     "Sizes included: [16, 24, 32, 48, 256]"].
Proof. vm_compute. reflexivity. Qed.

Section Exporter.
Context `{lib : Pillow}.

Lemma created_renderings (sizes : list Z) (img : ref) :
  created (renderings sizes img) = (fun s => (s, s)) <$> sizes.
Proof.
  revert img. induction sizes as [|size rest IH]; intros img; [reflexivity|].
  cbn [renderings]. unfold created in *. rewrite omap_app.
  fold (created (rendering size img)). rewrite created_rendering, IH. reflexivity.
Qed.

Lemma saved_renderings (sizes : list Z) (img : ref) : saved (renderings sizes img) = [].
Proof.
  revert img. induction sizes as [|size rest IH]; intros img; [reflexivity|].
  cbn [renderings]. unfold saved in *. rewrite omap_app.
  fold (saved (rendering size img)). rewrite saved_rendering, IH. reflexivity.
Qed.

(** One run without a fault makes [main_calls] calls into the library. *)
Lemma main_calls_counted (output_file png : string) (w : world) :
  ncalls (finished output_file png w) = (ncalls w + main_calls)%nat.
Proof.
  unfold ncalls, finished. cbn [calls].
  rewrite !length_app, length_rendering, length_renderings_default. reflexivity.
Qed.

Lemma main_ok (w : world) :
  quiet (ncalls w) main_calls ->
  main w = Ok tt (finished "src/app.ico" "src/app.png" w).
Proof.
  intros Hq. unfold main, try_except.
  rewrite (main_body_ok _ _ w Hq). reflexivity.
Qed.

(** X12: when the library does not fault, the script creates six images,
    of sizes 48, then 16, 24, 32, 48 and 256, and calls [save] twice: on
    the first image, for the PNG, with nothing appended, and on the second,
    for the ICO, with the other four appended and the five sizes asked for.
    The files it asks for hold the renderings at those sizes. *)
Theorem exports_png_and_ico (w : world) :
  quiet (ncalls w) main_calls ->
  exists w' : world,
    run w = (0, w')
    /\ created (calls_since w w')
       = [(48, 48); (16, 16); (24, 24); (32, 32); (48, 48); (256, 256)]
    /\ (let img := length (heap w) in
        saved (calls_since w w')
        = [Save img "src/app.png" PNG None None;
           Save (1 + img)%nat "src/app.ico" ICO
                (Some [2 + img; 3 + img; 4 + img; 5 + img]%nat)
                (Some [(16, 16); (24, 24); (32, 32); (48, 48); (256, 256)])])
    /\ heap w' = heap w ++ [icon 48; icon 16; icon 24; icon 32; icon 48; icon 256]
    /\ files w' !! "src/app.png"
       = Some {| file_format := PNG; file_image := icon 48;
                 file_append_images := None; file_sizes := None |}
    /\ files w' !! "src/app.ico"
       = Some {| file_format := ICO; file_image := icon 16;
                 file_append_images := Some [icon 24; icon 32; icon 48; icon 256];
                 file_sizes := Some [(16, 16); (24, 24); (32, 32); (48, 48); (256, 256)] |}
    /\ dimensions <$> [icon 48; icon 16; icon 24; icon 32; icon 48; icon 256]
       = [(48, 48); (16, 16); (24, 24); (32, 32); (48, 48); (256, 256)].
Proof.
  intros Hq. exists (finished "src/app.ico" "src/app.png" w).
  split; [unfold run; rewrite (main_ok w Hq); reflexivity|].
  assert (Hcalls : calls_since w (finished "src/app.ico" "src/app.png" w)
                   = rendering 48 (length (heap w))
                     ++ [Save (length (heap w)) "src/app.png" PNG None None]
                     ++ renderings default_sizes (S (length (heap w)))
                     ++ [ico_save "src/app.ico" default_sizes (S (length (heap w)))]).
  { unfold calls_since, ncalls, finished. cbn [calls]. apply drop_app_length. }
  rewrite Hcalls.
  split; [|split; [|split; [|split; [|split]]]].
  - unfold created. rewrite !omap_app.
    fold (created (rendering 48 (length (heap w)))).
    fold (created (renderings default_sizes (S (length (heap w))))).
    rewrite created_rendering, created_renderings. reflexivity.
  - cbv zeta. unfold saved. rewrite !omap_app.
    fold (saved (rendering 48 (length (heap w)))).
    fold (saved (renderings default_sizes (S (length (heap w))))).
    rewrite saved_rendering, saved_renderings. reflexivity.
  - reflexivity.
  - unfold finished. cbn [files].
    rewrite lookup_insert_ne by discriminate.
    rewrite lookup_insert_eq. reflexivity.
  - unfold finished. cbn [files]. rewrite lookup_insert_eq. reflexivity.
  - cbn [fmap list_fmap]. rewrite !dimensions_icon. reflexivity.
Qed.

(** C5: an exception raised by a call into the library is not caught in
    the renderer nor in [create_ico]: each raises it in turn.  The [try]
    block of [__main__] raises it too, the handler prints
    ["Error creating icon: "] followed by its message and its traceback,
    once, and the process exits with status 1.  Without a fault the process
    exits with status 0 and prints no traceback. *)
Theorem exceptions_reach_top_level :
  (forall (size : Z) (w : world) (k : nat) (e : exn),
      (k < length (rendering size 0%nat))%nat ->
      quiet (ncalls w) k -> fault (ncalls w + k) = Some e ->
      exists w', create_house_with_sound_icon size w = Raise e w')
  /\ (forall (output_path : string) (size : Z) (rest : list Z) (w : world)
            (k : nat) (e : exn),
        (k < length (renderings (size :: rest) 0%nat) + 1)%nat ->
        quiet (ncalls w) k -> fault (ncalls w + k) = Some e ->
        exists w', create_ico output_path (size :: rest) w = Raise e w')
  /\ (forall (w : world) (k : nat) (e : exn),
        (k < main_calls)%nat ->
        quiet (ncalls w) k -> fault (ncalls w + k) = Some e ->
        exists w1 w',
          main_body "src/app.ico" "src/app.png" w = Raise e w1
          /\ main w = Exit 1 w'
          /\ run w = (1, w')
          /\ stdout w' = stdout w1 ++ ["Error creating icon: " +:+ exn_message e]
          /\ stderr w' = stderr w ++ [e]
          /\ calls w' = calls w1 /\ files w' = files w1)
  /\ (forall w : world,
        quiet (ncalls w) main_calls ->
        exists w', main w = Ok tt w' /\ run w = (0, w') /\ stderr w' = stderr w).
Proof.
  split; [|split; [|split]].
  - intros size w k e Hk Hq Hf.
    destruct (render_raises size w k e Hk Hq Hf) as (w' & Hr & _).
    exists w'. exact Hr.
  - intros output_path size rest w k e Hk Hq Hf.
    destruct (create_ico_raises output_path size rest w k e Hk Hq Hf) as (w' & Hr & _).
    exists w'. exact Hr.
  - intros w k e Hk Hq Hf.
    destruct (main_body_raises "src/app.ico" "src/app.png" w k e Hk Hq Hf)
      as (w1 & Hr & He).
    exists w1, (write_stderr e (write_stdout ("Error creating icon: " +:+ exn_message e) w1)).
    assert (Hmain : main w = Exit 1 (write_stderr e
                      (write_stdout ("Error creating icon: " +:+ exn_message e) w1))).
    { unfold main, try_except. rewrite Hr. reflexivity. }
    split; [exact Hr|]. split; [exact Hmain|].
    split; [unfold run; rewrite Hmain; reflexivity|].
    split; [reflexivity|].
    split; [cbn [stderr write_stderr write_stdout]; rewrite He; reflexivity|].
    split; reflexivity.
  - intros w Hq. exists (finished "src/app.ico" "src/app.png" w).
    split; [exact (main_ok w Hq)|].
    split; [unfold run; rewrite (main_ok w Hq); reflexivity | reflexivity].
Qed.

End Exporter.

(* ===================================================================== *)
(** * The script at work, on the reference library *)
(* ===================================================================== *)

Lemma reference_quiet (n k : nat) : @quiet reference n k.
Proof. intros j _. reflexivity. Qed.

(** At size 48 the canvas is 48 x 48 with an alpha channel. *)
Lemma canvas_at_48 :
  0 < 48
  /\ @quiet reference (ncalls empty_world) (length (rendering 48 0%nat))
  /\ exists img w' im,
       @create_house_with_sound_icon reference 48 empty_world = Ok img w'
       /\ heap w' !! img = Some im
       /\ has_alpha (im_mode im) = true
       /\ im_width im = 48 /\ im_height im = 48 /\ pixel_count im = 48 * 48.
Proof.
  split; [lia|]. split; [apply reference_quiet|].
  destruct (@canvas_is_square_and_transparent reference 48 empty_world
              ltac:(lia) (reference_quiet _ _))
    as (img & w' & im & ss & Hrun & Him & Ha & Hw & Hh & Hn & _).
  exists img, w', im. repeat split; assumption.
Defined.

(** At size 48 the canvas is created transparent white. *)
Lemma transparent_white_at_48 :
  0 < 48
  /\ @quiet reference (ncalls empty_world) (length (rendering 48 0%nat))
  /\ exists img w',
       @create_house_with_sound_icon reference 48 empty_world = Ok img w'
       /\ head (calls_since empty_world w') = Some (New RGBA (48, 48) (255, 255, 255, 0))
       /\ flatten (blank RGBA (48, 48) (255, 255, 255, 0)) 0 0 = Some (255, 255, 255).
Proof.
  split; [lia|]. split; [apply reference_quiet|].
  destruct (@canvas_is_transparent_white reference 48 empty_world
              ltac:(lia) (reference_quiet _ _))
    as (img & w' & im & canvas & ss & Hrun & Him & Hnew & -> & _ & Hcanvas & _).
  exists img, w'. split; [exact Hrun|]. split; [exact Hnew|].
  apply (Hcanvas 0 0); lia.
Defined.

(** At size 24 three arcs from -10 to 100 degrees, the roof and the body
    are drawn, and no window. *)
Lemma primitives_at_24 :
  0 < 24
  /\ @quiet reference (ncalls empty_world) (length (rendering 24 0%nat))
  /\ exists img w',
       @create_house_with_sound_icon reference 24 empty_world = Ok img w'
       /\ arc_angles (drawn_on img (calls_since empty_world w'))
          = [(-10, 100); (-10, 100); (-10, 100)]
       /\ length (drawn_on img (calls_since empty_world w')) = 5%nat.
Proof.
  split; [lia|]. split; [apply reference_quiet|].
  destruct (@primitives_in_order reference 24 empty_world
              ltac:(lia) (reference_quiet _ _))
    as (img & w' & im & Hrun & Him & Hdrawn & _).
  exists img, w'. split; [exact Hrun|].
  rewrite Hdrawn. split; reflexivity.
Defined.

(** At size 48 the arcs are one pixel wide. *)
Lemma truncated_width_at_48 :
  0 < 48
  /\ @quiet reference (ncalls empty_world) (length (rendering 48 0%nat))
  /\ exists img w',
       @create_house_with_sound_icon reference 48 empty_world = Ok img w'
       /\ arc_widths (drawn_on img (calls_since empty_world w')) = [1; 1; 1].
Proof.
  split; [lia|]. split; [apply reference_quiet|].
  destruct (@arcs_stroked_with_truncated_width reference 48 empty_world
              ltac:(lia) (reference_quiet _ _))
    as (img & w' & Hrun & Hwidths & _).
  exists img, w'. split; [exact Hrun|].
  rewrite Hwidths. vm_compute. reflexivity.
Defined.

(** C1 as stated fails at size 48: [size / 24 * 0.8] is 1.6, the arcs are
    drawn one pixel wide, and rounding to nearest would give two. *)
Lemma rounded_width_refuted :
  exists img w',
    @create_house_with_sound_icon reference 48 empty_world = Ok img w'
    /\ arc_widths (drawn_on img (calls_since empty_world w')) = [1; 1; 1]
    /\ rounded_line_width 48 = 2
    /\ (scale_of 48 * literal 0.8)%float = (3602879701896397 # 2251799813685248)%Q.
Proof.
  destruct (@render_run reference 48 empty_world (reference_quiet _ _))
    as (img & w' & Hrun & _ & _ & _ & Hdrawn).
  exists img, w'. split; [exact Hrun|].
  rewrite Hdrawn. repeat split; vm_compute; reflexivity.
Qed.

(** At size 32 the image has a light-gray pixel. *)
Lemma window_at_32 :
  0 < 32
  /\ @quiet reference (ncalls empty_world) (length (rendering 32 0%nat))
  /\ exists img w' im x y,
       @create_house_with_sound_icon reference 32 empty_world = Ok img w'
       /\ heap w' !! img = Some im
       /\ getpixel im x y = Some light_gray.
Proof.
  split; [lia|]. split; [apply reference_quiet|].
  destruct (@window_from_32 reference reference_rasteriser 32 empty_world
              ltac:(lia) (reference_quiet _ _))
    as (img & w' & im & Hrun & Him & _ & _ & Hbig).
  destruct (Hbig ltac:(lia)) as (x & y & Hpix).
  exists img, w', im, x, y. repeat split; assumption.
Defined.

(** At size 32 the window lies within the body. *)
Lemma window_within_body_at_32 :
  32 <= 32
  /\ @quiet reference (ncalls empty_world) (length (rendering 32 0%nat))
  /\ (to_int (body_x1 32) <= to_int (window_x1 32)
      /\ to_int (window_x2 32) <= to_int (body_x2 32)
      /\ to_int (body_y1 32) <= to_int (window_y1 32)
      /\ to_int (window_y2 32) <= to_int (body_y2 32)).
Proof.
  split; [lia|]. split; [apply reference_quiet|].
  destruct (@window_within_body reference reference_rasteriser 32 empty_world
              ltac:(lia) (reference_quiet _ _))
    as (img & w' & im & _ & _ & _ & _ & _ & _ & Hpixels & _).
  exact Hpixels.
Defined.

(** Two runs at size 48, the second after something was printed, return
    the same image. *)
Lemma deterministic_at_48 :
  0 < 48
  /\ (forall s x y, @stroke reference s x y = @stroke reference s x y)
  /\ @quiet reference (ncalls empty_world) (length (rendering 48 0%nat))
  /\ @quiet reference (ncalls (write_stdout "hello" empty_world))
        (length (rendering 48 0%nat))
  /\ exists img1 img2 w1' w2' im,
       @create_house_with_sound_icon reference 48 empty_world = Ok img1 w1'
       /\ @create_house_with_sound_icon reference 48 (write_stdout "hello" empty_world)
          = Ok img2 w2'
       /\ heap w1' !! img1 = Some im
       /\ heap w2' !! img2 = Some im.
Proof.
  split; [lia|]. split; [reflexivity|].
  split; [apply reference_quiet|]. split; [apply reference_quiet|].
  destruct (rendering_is_deterministic reference reference 48 empty_world
              (write_stdout "hello" empty_world) ltac:(lia)
              (fun _ _ _ => eq_refl) (reference_quiet _ _) (reference_quiet _ _))
    as (img1 & img2 & w1' & w2' & im1 & im2 & H1 & H2 & Him1 & Him2 & _ & _ & _ & _ & Heq).
  exists img1, img2, w1', w2', im1.
  split; [exact H1|]. split; [exact H2|]. split; [exact Him1|].
  rewrite (Heq eq_refl). exact Him2.
Defined.

(** On the reference library the script exits with status 0, having
    rendered at the six sizes and asked for the two files. *)
Lemma exports_on_reference :
  @quiet reference (ncalls empty_world) main_calls
  /\ exists w',
       @run reference empty_world = (0, w')
       /\ created (calls_since empty_world w')
          = [(48, 48); (16, 16); (24, 24); (32, 32); (48, 48); (256, 256)]
       /\ file_format <$> files w' !! "src/app.png" = Some PNG
       /\ file_format <$> files w' !! "src/app.ico" = Some ICO.
Proof.
  split; [apply reference_quiet|].
  destruct (@exports_png_and_ico reference empty_world (reference_quiet _ _))
    as (w' & Hrun & Hcreated & _ & _ & Hpng & Hico & _).
  exists w'. split; [exact Hrun|]. split; [exact Hcreated|].
  rewrite Hpng, Hico. split; reflexivity.
Defined.

(** When the eleventh call into the library raises, the script prints the
    error and the traceback and exits with status 1. *)
Lemma disk_full_at_call_10 :
  (10 < main_calls)%nat
  /\ @quiet (failing 10 disk_full) (ncalls empty_world) 10
  /\ @fault (failing 10 disk_full) (ncalls empty_world + 10) = Some disk_full
  /\ exists w1 w',
       @main (failing 10 disk_full) empty_world = Exit 1 w'
       /\ @run (failing 10 disk_full) empty_world = (1, w')
       /\ stdout w' = stdout w1
                      ++ ["Error creating icon: [Errno 28] No space left on device"]
       /\ stderr w' = [disk_full].
Proof.
  assert (Hq : @quiet (failing 10 disk_full) (ncalls empty_world) 10).
  { intros j Hj. cbn [fault failing]. apply decide_False. cbn in Hj. lia. }
  split; [unfold main_calls; lia|]. split; [exact Hq|]. split; [reflexivity|].
  destruct (@exceptions_reach_top_level (failing 10 disk_full)) as (_ & _ & Hmain & _).
  destruct (Hmain empty_world 10%nat disk_full ltac:(unfold main_calls; lia) Hq eq_refl)
    as (w1 & w' & _ & Hexit & Hrun & Hout & Herr & _).
  exists w1, w'. split; [exact Hexit|]. split; [exact Hrun|].
  split; [exact Hout | exact Herr].
Defined.

(* ===================================================================== *)
(** * More on rounding: numbers a rounding cannot fall below *)
(* ===================================================================== *)

Module Float64Order.
Import Float64Facts.

Lemma nearest_even_ge_floor (x : Q) : Qfloor x <= nearest_even x.
Proof.
  unfold nearest_even.
  destruct (Qcompare (x - inject_Z (Qfloor x)) (1 # 2));
    [destruct (Z.even (Qfloor x))| |]; lia.
Qed.

Lemma two_power_split (a b : Z) : (2 ^ a == 2 ^ (a - b) * 2 ^ b)%Q.
Proof.
  rewrite <- Qpower_plus by discriminate.
  replace (a - b + b) with a by lia. reflexivity.
Qed.

Lemma two_power_ge_2 (d : Z) : 1 <= d -> (2 <= 2 ^ d)%Q.
Proof.
  intros Hd. rewrite <- two_power_inject by lia.
  change 2%Q with (inject_Z 2). rewrite <- Zle_Qle.
  change 2 with (2 ^ 1) at 1. apply Z.pow_le_mono_r; lia.
Qed.

(** Rounding does not fall below a float that the number is not below. *)
Lemma round53_ge_dyadic (n t : Z) (p : Q) :
  0 < n < 2 ^ 53 ->
  (inject_Z n * 2 ^ t <= p)%Q ->
  (inject_Z n * 2 ^ t <= round53 p)%Q.
Proof.
  intros [Hn0 Hn] Hp.
  pose proof (two_power_pos t) as Ht.
  assert (Hnq : (0 < inject_Z n)%Q)
    by (change 0%Q with (inject_Z 0); rewrite <- Zlt_Qlt; exact Hn0).
  assert (Hnq' : (inject_Z n < 9007199254740992)%Q)
    by (change 9007199254740992%Q with (inject_Z (2 ^ 53)); rewrite <- Zlt_Qlt; exact Hn).
  assert (Hpos : (0 < p)%Q).
  { apply Qlt_le_trans with (inject_Z n * 2 ^ t)%Q; [|exact Hp].
    apply Qmult_lt_0_compat; assumption. }
  unfold round53.
  destruct (Qeq_bool p 0) eqn:Hz.
  { apply Qeq_bool_iff in Hz. lra. }
  rewrite Qred_correct.
  pose proof (ulp_exp_lower p Hpos) as Hlow.
  set (e := ulp_exp p) in *. clearbody e.
  pose proof (two_power_pos e) as He.
  pose proof (nearest_even_ge_floor (p / 2 ^ e)) as Hm.
  assert (Hpx : (p == p / 2 ^ e * 2 ^ e)%Q) by (field; lra).
  set (x := (p / 2 ^ e)%Q) in *. clearbody x.
  rewrite Zle_Qle in Hm.
  set (m := inject_Z (nearest_even x)) in *. clearbody m.
  destruct (Z_le_gt_dec e t) as [Hle | Hgt].
  - (* the last place of [p] is at or below [2^t] *)
    pose proof (two_power_split t e) as Hsplit.
    pose proof (two_power_inject (t - e) ltac:(lia)) as Hint.
    assert (HN : (inject_Z (n * 2 ^ (t - e)) <= x)%Q).
    { rewrite inject_Z_mult, Hint.
      apply Qmult_le_r with (2 ^ e)%Q; [exact He|].
      rewrite <- Hpx, <- Qmult_assoc, <- Hsplit. exact Hp. }
    apply Qfloor_resp_le in HN. rewrite Qfloor_Z in HN.
    rewrite Zle_Qle, inject_Z_mult, Hint in HN.
    rewrite Hsplit.
    set (q := (2 ^ (t - e))%Q) in *. clearbody q.
    set (pe := (2 ^ e)%Q) in *. clearbody pe.
    set (f := inject_Z (Qfloor x)) in *. clearbody f.
    set (nq := inject_Z n) in *. clearbody nq.
    assert (Hprod : (0 <= (m - nq * q) * pe)%Q)
      by (apply Qmult_le_0_compat; lra).
    lra.
  - (* the last place of [p] is above [2^t] *)
    pose proof (two_power_split e t) as Hsplit.
    pose proof (two_power_ge_2 (e - t) ltac:(lia)) as H2.
    assert (Hf : (4503599627370496 <= inject_Z (Qfloor x))%Q).
    { change 4503599627370496%Q with (inject_Z (Qfloor (inject_Z (2 ^ 52)))).
      rewrite <- Zle_Qle. apply Qfloor_resp_le. exact Hlow. }
    rewrite Hsplit.
    set (q := (2 ^ (e - t))%Q) in *. clearbody q.
    set (pt := (2 ^ t)%Q) in *. clearbody pt.
    set (f := inject_Z (Qfloor x)) in *. clearbody f.
    set (nq := inject_Z n) in *. clearbody nq.
    assert (Hqt : (0 < q * pt)%Q) by (apply Qmult_lt_0_compat; lra).
    assert (H1 : (0 <= (m - 4503599627370496) * (q * pt))%Q)
      by (apply Qmult_le_0_compat; lra).
    assert (H3 : (0 <= (q - 2) * pt)%Q)
      by (apply Qmult_le_0_compat; lra).
    assert (H4 : (0 <= (9007199254740992 - nq) * pt)%Q)
      by (apply Qmult_le_0_compat; lra).
    lra.
Qed.

(** The truncation of a float between an integer and the next is that
    integer. *)
Lemma to_int_unique (x : float) (n : Z) :
  (inject_Z n <= x < inject_Z n + 1)%Q -> 0 <= n -> to_int x = n.
Proof.
  intros [Hlo Hhi] Hn.
  assert (Hx : (0 <= x)%Q).
  { apply Qle_trans with (inject_Z n); [|exact Hlo].
    change 0%Q with (inject_Z 0). rewrite <- Zle_Qle. exact Hn. }
  destruct (to_int_floor x Hx) as [Hfl Hfh].
  assert (H1 : (inject_Z n < inject_Z (to_int x + 1))%Q)
    by (rewrite inject_Z_plus; inject_lra).
  assert (H2 : (inject_Z (to_int x) < inject_Z (n + 1))%Q)
    by (rewrite inject_Z_plus; inject_lra).
  rewrite <- Zlt_Qlt in H1, H2. lia.
Qed.

End Float64Order.

(* ===================================================================== *)
(** * The geometry on the canvas *)
(* ===================================================================== *)

Module Canvas.
Import Float64Facts Float64Order Geometry.

(** A positive multiple of the scale, by at most 22, lies on the canvas. *)
Lemma scaled_on_canvas (k : float) (size : Z) :
  (0 < k <= 22)%Q -> 0 < size ->
  (0 < Float64.mul k (scale_of size) < inject_Z size)%Q.
Proof.
  intros [Hk0 Hk] Hsize.
  pose proof (int_truediv_error size 24 Hsize ltac:(lia)) as [Hs1 Hs2].
  fold (scale_of size) in Hs1, Hs2.
  pose proof (ideal_scale size) as Hz.
  assert (Hzq : (0 < inject_Z size)%Q)
    by (change 0%Q with (inject_Z 0); rewrite <- Zlt_Qlt; exact Hsize).
  change (inject_Z 24) with 24%Q in *.
  set (s := (inject_Z size / 24)%Q) in *. clearbody s.
  set (z := inject_Z size) in *. clearbody z.
  set (sc := scale_of size) in *. clearbody sc.
  assert (Hsc : (0 < sc)%Q) by lra.
  assert (Hp : (0 < k * sc)%Q) by (apply Qmult_lt_0_compat; assumption).
  destruct (mul_error k sc Hp) as [Hm1 Hm2].
  assert (Hq : (0 <= (22 - k) * sc)%Q) by (apply Qmult_le_0_compat; lra).
  set (v := Float64.mul k sc) in *. clearbody v.
  split; lra.
Qed.

(** Of two multiples of the scale, the one by the factor a quarter larger
    is the larger. *)
Lemma scaled_le (k1 k2 : float) (size : Z) :
  (0 < k1)%Q -> (5 * k1 <= 4 * k2)%Q -> 0 < size ->
  (Float64.mul k1 (scale_of size) <= Float64.mul k2 (scale_of size))%Q.
Proof.
  intros Hk1 Hk Hsize.
  pose proof (int_truediv_error size 24 Hsize ltac:(lia)) as [Hs1 _].
  fold (scale_of size) in Hs1.
  pose proof (ideal_scale size) as Hz.
  assert (Hzq : (0 < inject_Z size)%Q)
    by (change 0%Q with (inject_Z 0); rewrite <- Zlt_Qlt; exact Hsize).
  change (inject_Z 24) with 24%Q in *.
  set (s := (inject_Z size / 24)%Q) in *. clearbody s.
  set (z := inject_Z size) in *. clearbody z.
  set (sc := scale_of size) in *. clearbody sc.
  assert (Hsc : (0 < sc)%Q) by lra.
  assert (Hp1 : (0 < k1 * sc)%Q) by (apply Qmult_lt_0_compat; assumption).
  assert (Hq : (0 <= (4 * k2 - 5 * k1) * sc)%Q) by (apply Qmult_le_0_compat; lra).
  assert (Hp2 : (0 < k2 * sc)%Q) by lra.
  destruct (mul_error k1 sc Hp1) as [_ Hm1].
  destruct (mul_error k2 sc Hp2) as [Hm2 _].
  set (v1 := Float64.mul k1 sc) in *. clearbody v1.
  set (v2 := Float64.mul k2 sc) in *. clearbody v2.
  lra.
Qed.

(** The boxes of the arcs and of the rectangles are ordered. *)
Lemma boxes_ordered (size : Z) : 0 < size -> Forall box_ordered (shapes size).
Proof.
  intros Hsize.
  pose proof (window_in_body size Hsize) as Hin.
  unfold shapes. rewrite !Forall_app. split; [|split].
  - clear Hin. unfold sound_waves.
    do 3 (apply Forall_cons_2;
          [cbn [box_ordered]; split;
           (apply scaled_le;
            [vm_compute; reflexivity | vm_compute; discriminate | exact Hsize])|]).
    apply Forall_nil_2.
  - destruct Hin as [(Hbx0 & Hx1 & Hx12 & Hx2) (Hby0 & Hy1 & Hy12 & Hy2)].
    apply Forall_cons_2; [exact I|].
    apply Forall_cons_2; [|apply Forall_nil_2].
    unfold body. cbn [box_ordered]. split; lra.
  - destruct Hin as [(Hbx0 & Hx1 & Hx12 & Hx2) (Hby0 & Hy1 & Hy12 & Hy2)].
    destruct (32 <=? size); [|apply Forall_nil_2].
    apply Forall_cons_2; [|apply Forall_nil_2].
    unfold window. cbn [box_ordered]. split; assumption.
Qed.

(** The corners of the window lie on the canvas. *)
Lemma window_on_canvas (size : Z) :
  0 < size ->
  Forall (fun c => (0 < c < inject_Z size)%Q)
         [window_x1 size; window_y1 size; window_x2 size; window_y2 size].
Proof.
  intros Hsize.
  destruct (corners size Hsize) as (_ & _ & _ & _ & _ & Hx1 & Hy1 & Hx2 & Hy2).
  unfold near in *.
  pose proof (ideal_scale size) as Hz.
  assert (Hzq : (0 < inject_Z size)%Q)
    by (change 0%Q with (inject_Z 0); rewrite <- Zlt_Qlt; exact Hsize).
  set (s := (inject_Z size / 24)%Q) in *. clearbody s.
  set (z := inject_Z size) in *. clearbody z.
  repeat constructor; lra.
Qed.

(** Every coordinate of every primitive lies on the canvas. *)
Lemma coordinates_on_canvas (size : Z) :
  0 < size ->
  Forall (fun s => Forall (fun c => (0 < c < inject_Z size)%Q) (coordinates_of s))
         (shapes size).
Proof.
  intros Hsize. unfold shapes. rewrite !Forall_app. split; [|split].
  - unfold sound_waves. cbn [coordinates_of].
    repeat first [apply Forall_nil_2 | apply Forall_cons_2];
      (apply scaled_on_canvas; [split; vm_compute; easy | exact Hsize]).
  - unfold roof, body, body_x1, body_y1, body_x2, body_y2.
    cbn [coordinates_of flat_map app fst snd].
    repeat first [apply Forall_nil_2 | apply Forall_cons_2];
      (apply scaled_on_canvas; [split; vm_compute; easy | exact Hsize]).
  - destruct (32 <=? size); [|apply Forall_nil_2].
    apply Forall_cons_2; [|apply Forall_nil_2].
    apply window_on_canvas. exact Hsize.
Qed.

(** A float on the canvas truncates to the index of a pixel. *)
Lemma to_int_on_canvas (c : float) (size : Z) :
  (0 < c < inject_Z size)%Q -> 0 <= to_int c < size.
Proof.
  intros [H0 Hs].
  assert (Hc : (0 <= c)%Q) by lra.
  split.
  - apply to_int_ge; [exact Hc|]. exact Hc.
  - destruct (to_int_floor c Hc) as [Hfl _].
    rewrite Zlt_Qlt. lra.
Qed.

(** The stroke width is a thirtieth of the size, rounded down, and at least
    one. *)
Lemma line_width_closed_form (size : Z) :
  0 < size < 2 ^ 40 -> line_width size = Z.max 1 (size / 30).
Proof.
  intros [Hsize H40]. change (2 ^ 40) with 1099511627776 in H40.
  unfold line_width. f_equal.
  destruct constants as (_ & _ & _ & _ & _ & _ & C08).
  pose proof (int_truediv_error size 24 Hsize ltac:(lia)) as [Hs1 Hs2].
  fold (scale_of size) in Hs1, Hs2.
  pose proof (Z.div_mod size 30 ltac:(lia)) as Hdiv.
  pose proof (Z.mod_pos_bound size 30 ltac:(lia)) as Hmod.
  pose proof (Z.div_pos size 30 ltac:(lia) ltac:(lia)) as Hk.
  set (k := size / 30) in *. clearbody k.
  set (r := size mod 30) in *. clearbody r.
  assert (Hround : r = 0 ->
                   (5 * inject_Z k * (1 # 4) <= scale_of size)%Q).
  { intros Hr. change 5%Q with (inject_Z 5). rewrite <- inject_Z_mult.
    change (1 # 4)%Q with (2 ^ (-2))%Q.
    apply round53_ge_dyadic; [change (2 ^ 53) with 9007199254740992; lia|].
    apply Qle_lteq. right. rewrite Hdiv, Hr, Z.add_0_r, !inject_Z_mult.
    change (2 ^ (-2))%Q with (1 # 4)%Q. change (inject_Z 24) with 24%Q.
    change (inject_Z 30) with 30%Q. change (inject_Z 5) with 5%Q. field. }
  assert (Hexact : forall p : Q, (inject_Z k <= p)%Q -> 0 < k -> (inject_Z k <= round53 p)%Q).
  { intros p Hp Hk0.
    assert (H : (inject_Z k * 2 ^ 0 <= round53 p)%Q).
    { apply round53_ge_dyadic; [change (2 ^ 53) with 9007199254740992; lia|].
      change (2 ^ 0)%Q with 1%Q. rewrite Qmult_1_r. exact Hp. }
    change (2 ^ 0)%Q with 1%Q in H. rewrite Qmult_1_r in H. exact H. }
  assert (Hkr : (inject_Z size == 30 * inject_Z k + inject_Z r)%Q).
  { rewrite Hdiv at 1. rewrite inject_Z_plus, inject_Z_mult. reflexivity. }
  assert (Hr0 : (0 <= inject_Z r)%Q)
    by (change 0%Q with (inject_Z 0); rewrite <- Zle_Qle; lia).
  assert (Hr1 : r = 0 \/ (1 <= inject_Z r)%Q).
  { destruct (Z.eq_dec r 0) as [-> | Hne]; [left; reflexivity|right].
    change 1%Q with (inject_Z 1). rewrite <- Zle_Qle. lia. }
  assert (Hr29 : (inject_Z r <= 29)%Q)
    by (change 29%Q with (inject_Z 29); rewrite <- Zle_Qle; lia).
  assert (Hkq : (0 <= inject_Z k)%Q)
    by (change 0%Q with (inject_Z 0); rewrite <- Zle_Qle; lia).
  assert (Hk0 : r = 0 -> 0 < k) by lia.
  assert (Hzq : (inject_Z size < 1099511627776)%Q)
    by (change 1099511627776%Q with (inject_Z 1099511627776); rewrite <- Zlt_Qlt; lia).
  assert (Hz0 : (0 < inject_Z size)%Q)
    by (change 0%Q with (inject_Z 0); rewrite <- Zlt_Qlt; lia).
  pose proof (ideal_scale size) as Hz.
  change (inject_Z 24) with 24%Q in *.
  unfold Float64.mul in *. rewrite C08 in *.
  set (c := (3602879701896397 # 4503599627370496)%Q) in *.
  assert (Hc : (c == 3602879701896397 # 4503599627370496)%Q) by reflexivity.
  clearbody c.
  set (s := (inject_Z size / 24)%Q) in *. clearbody s.
  set (sc := scale_of size) in *. clearbody sc.
  assert (Hsc : (0 < sc)%Q) by lra.
  assert (Hp : (0 < sc * (3602879701896397 # 4503599627370496))%Q) by lra.
  assert (Hpc : (sc * c == sc * (3602879701896397 # 4503599627370496))%Q)
    by (rewrite Hc; reflexivity).
  destruct (round53_error (sc * c)) as [Hv1 Hv2]; [lra|].
  specialize (Hexact (sc * c)%Q).
  set (v := round53 (sc * c)) in *. clearbody v.
  set (p := (sc * c)%Q) in *. clearbody p.
  set (z := inject_Z size) in *. clearbody z.
  set (rq := inject_Z r) in *. clearbody rq.
  apply to_int_unique; [|exact Hk].
  set (kq := inject_Z k) in *. clearbody kq.
  split.
  - destruct Hr1 as [Hr | Hr].
    + specialize (Hround Hr). apply Hexact; [lra | exact (Hk0 Hr)].
    + lra.
  - lra.
Qed.

End Canvas.

(* ===================================================================== *)
(** * The script under any faults *)
(* ===================================================================== *)

Section Faults.
Context `{lib : Pillow}.

(** Read a field of a world that was built step by step. *)
Ltac read_fields :=
  cbn [calls heap stdout stderr files
       write_stdout write_stderr write_file log_call set_heap rendered].

(** Either none of [k] calls faults, or one of them is the first to. *)
Lemma first_fault (n k : nat) :
  quiet n k
  \/ exists (j : nat) (e : exn), (j < k)%nat /\ quiet n j /\ fault (n + j) = Some e.
Proof.
  induction k as [|k IH].
  - left. intros j Hj. lia.
  - destruct IH as [Hq | (j & e & Hj & Hq & Hf)].
    + destruct (fault (n + k)) as [e|] eqn:Hf.
      * right. exists k, e. split; [lia|]. split; [exact Hq | exact Hf].
      * left. intros j Hj.
        destruct (decide (j = (n + k)%nat)) as [-> | Hne]; [exact Hf|].
        apply Hq. lia.
    + right. exists j, e. split; [lia|]. split; [exact Hq | exact Hf].
Qed.

(** A first fault among [k] calls means the [k] calls are not quiet. *)
Lemma fault_not_quiet (n k j : nat) (e : exn) :
  (j < k)%nat -> fault (n + j) = Some e -> ~ quiet n k.
Proof.
  intros Hj Hf Hq. rewrite Hq in Hf by lia. discriminate.
Qed.

(** The renderer returns the rendering, or raises having printed and
    written nothing. *)
Lemma render_cases (size : Z) (w : world) :
  (quiet (ncalls w) (length (rendering size 0%nat))
   /\ create_house_with_sound_icon size w
      = Ok (length (heap w))
           (rendered w (rendering size (length (heap w))) (icon size)))
  \/ (exists (e : exn) (w' : world),
        create_house_with_sound_icon size w = Raise e w'
        /\ stdout w' = stdout w /\ stderr w' = stderr w /\ files w' = files w).
Proof.
  destruct (first_fault (ncalls w) (length (rendering size 0%nat)))
    as [Hq | (k & e & Hk & Hq & Hf)].
  - left. split; [exact Hq | apply render_ok; exact Hq].
  - right. destruct (render_raises size w k e Hk Hq Hf) as (w' & Hr & H).
    exists e, w'. split; [exact Hr | exact H].
Qed.

(** The body of the loop, as [create_ico] writes it. *)
Local Abbreviation ico_loop_body :=
  (fun (size : Z) (images_data : list ref) =>
     print ("  Creating " +:+ str size +:+ "x" +:+ str size +:+ " icon...");;
     img <- create_house_with_sound_icon size;;
     ret (images_data ++ [img])).

(** The loop writes no file and no traceback, however it ends; it does not
    exit. *)
Lemma loop_files (sizes : list Z) (images_data : list ref) (w : world) :
  match for_each sizes ico_loop_body images_data w with
  | Ok _ w' | Raise _ w' => files w' = files w /\ stderr w' = stderr w
  | Exit _ _ => False
  end.
Proof.
  revert images_data w.
  induction sizes as [|size rest IH]; intros images_data w.
  - split; reflexivity.
  - cbn [for_each].
    unfold bind at 1. unfold bind at 1. unfold print at 1.
    set (w0 := write_stdout _ w).
    destruct (render_cases size w0) as [[_ Hok] | (e & w' & Hr & _ & He & Hf)].
    + unfold bind at 1. rewrite Hok. unfold ret at 1.
      exact (IH (images_data ++ [length (heap w0)])
                (rendered w0 (rendering size (length (heap w0))) (icon size))).
    + unfold bind at 1. rewrite Hr. split; assumption.
Qed.

(** Reading the sizes of the images changes nothing. *)
Lemma comprehension_world (refs : list ref) (w : world) :
  match comprehension
          (fun img => wd <- attr im_width img;; h <- attr im_height img;; ret (wd, h))
          refs w with
  | Ok _ w' | Raise _ w' => w' = w
  | Exit _ _ => False
  end.
Proof.
  induction refs as [|r refs IH]; [reflexivity|].
  cbn [comprehension]. unfold bind at 1. unfold bind at 1. unfold attr at 1.
  destruct (heap w !! r) as [im|] eqn:Hr; [|reflexivity].
  unfold bind at 1. unfold attr at 1. rewrite Hr. unfold ret at 1.
  unfold bind at 1.
  destruct (comprehension _ refs w) as [ys w'|e w'|n w']; exact IH.
Qed.

(** [create_ico] writes no file unless it returns, and no traceback; it does
    not exit. *)
Lemma create_ico_files (output_path : string) (sizes : list Z) (w : world) :
  match create_ico output_path sizes w with
  | Ok _ w' => stderr w' = stderr w
  | Raise _ w' => files w' = files w /\ stderr w' = stderr w
  | Exit _ _ => False
  end.
Proof.
  unfold create_ico.
  unfold bind at 1. unfold print at 1.
  set (w1 := write_stdout _ w).
  pose proof (loop_files sizes [] w1) as Hloop.
  unfold bind at 1.
  destruct (for_each sizes _ [] w1) as [images_data w2|e w2|n w2];
    [|exact Hloop|exact Hloop].
  destruct Hloop as [Hf He].
  unfold bind at 1. unfold print at 1.
  match goal with |- context [write_stdout ?s ?w'] => set (w3 := write_stdout s w') end.
  unfold bind at 1. unfold index at 1.
  destruct (images_data !! 0%nat) as [first|]; [|split; assumption].
  unfold ret at 1.
  pose proof (comprehension_world images_data w3) as Hc.
  unfold bind at 1.
  destruct (comprehension _ images_data w3) as [dims w4|e w4|n w4];
    [subst w4|subst w4; split; assumption|exact Hc].
  unfold bind at 1. unfold save at 1, library at 1.
  destruct (fault (ncalls w3)) as [e|]; [split; assumption|].
  destruct (heap w3 !! first) as [im|]; [|split; assumption].
  cbn [mbind option_bind].
  destruct (mapM (fun r => heap w3 !! r) (drop 1 images_data)) as [frames|];
    [|split; assumption].
  cbn [fmap option_fmap option_map mbind option_bind].
  exact He.
Qed.

(** The [try] block writes the PNG before anything of the ICO, and no file
    but these; it does not exit. *)
Lemma main_body_files (output_file png : string) (w : world) :
  match main_body output_file png w with
  | Ok _ _ => True
  | Raise _ w' =>
      stderr w' = stderr w
      /\ (files w' = files w \/ files w' = <[png := png_written 48]> (files w))
  | Exit _ _ => False
  end.
Proof.
  unfold main_body.
  unfold bind at 1. unfold print at 1.
  set (w1 := write_stdout _ w).
  destruct (render_cases 48 w1) as [[_ Hok] | (e & w' & Hr & _ & He & Hf)].
  2:{ unfold bind at 1. rewrite Hr. split; [exact He | left; exact Hf]. }
  unfold bind at 1. rewrite Hok.
  set (w2 := rendered w1 _ _).
  unfold bind at 1. unfold save at 1, library at 1.
  destruct (fault (ncalls w2)) as [e|]; [split; [reflexivity | left; reflexivity]|].
  replace (heap w2 !! length (heap w1)) with (Some (icon 48))
    by (symmetry; apply lookup_last).
  cbn [mbind option_bind].
  unfold bind at 1. unfold print at 1.
  match goal with |- context [write_stdout ?s ?w'] => set (w4 := write_stdout s w') end.
  pose proof (create_ico_files output_file default_sizes w4) as Hico.
  unfold bind at 1.
  destruct (create_ico output_file default_sizes w4) as [[] w5|e w5|n w5].
  - exact I.
  - destruct Hico as [Hf He]. split; [exact He | right; exact Hf].
  - exact Hico.
Qed.

(** The script either runs to its end, or stops at its first fault. *)
Lemma main_cases (w : world) :
  (quiet (ncalls w) main_calls
   /\ main w = Ok tt (finished "src/app.ico" "src/app.png" w))
  \/ (~ quiet (ncalls w) main_calls
      /\ exists (e : exn) (w1 : world),
           main_body "src/app.ico" "src/app.png" w = Raise e w1
           /\ main w = Exit 1 (write_stderr e
                         (write_stdout ("Error creating icon: " +:+ exn_message e) w1))
           /\ stderr w1 = stderr w
           /\ (files w1 = files w
               \/ files w1 = <["src/app.png" := png_written 48]> (files w))).
Proof.
  destruct (first_fault (ncalls w) main_calls) as [Hq | (k & e & Hk & Hq & Hf)].
  - left. split; [exact Hq|]. unfold main, try_except.
    rewrite (main_body_ok _ _ w Hq). reflexivity.
  - right. split; [exact (fault_not_quiet _ _ _ _ Hk Hf)|].
    destruct (main_body_raises "src/app.ico" "src/app.png" w k e Hk Hq Hf)
      as (w1 & Hr & _).
    pose proof (main_body_files "src/app.ico" "src/app.png" w) as Hfiles.
    rewrite Hr in Hfiles. destruct Hfiles as [He Hfiles].
    exists e, w1. split; [exact Hr|].
    split; [unfold main, try_except; rewrite Hr; reflexivity|].
    split; [exact He | exact Hfiles].
Qed.

(** With Pillow the script is its [__main__] block. *)
Lemma script_with_pillow (w : world) : script true w = main w.
Proof. reflexivity. Qed.

(** X1: given no size, [create_ico] prints its first two lines and raises
    [IndexError] at [images_data[0]]: it makes no call into the library and
    writes no file. *)
Theorem create_ico_without_sizes (output_path : string) (w : world) :
  create_ico output_path [] w
  = Raise {| exn_class := "IndexError"; exn_message := "list index out of range" |}
          {| calls := calls w; heap := heap w;
             stdout := stdout w ++ ["Generating icon at multiple resolutions...";
                                    "Saving ICO file to " +:+ output_path +:+ "..."];
             stderr := stderr w; files := files w |}.
Proof.
  unfold create_ico, bind, print, for_each, ret, index, raise.
  cbn [lookup list_lookup]. f_equal.
  apply world_ext; read_fields; try reflexivity.
  rewrite <- app_assoc. reflexivity.
Qed.

(** X2: when the library does not fault, [create_ico] renders the sizes
    it is given once each, in the order given, and calls [save] once, on the
    image of the first size given, with the images of the others appended
    and the sizes asked for in that order.  It sorts nothing and drops no
    duplicate. *)
Theorem create_ico_follows_given_order (output_path : string) (size : Z)
    (rest : list Z) (w : world) :
  quiet (ncalls w) (length (renderings (size :: rest) 0%nat) + 1) ->
  exists w' : world,
    create_ico output_path (size :: rest) w = Ok tt w'
    /\ created (calls_since w w') = (fun s => (s, s)) <$> size :: rest
    /\ saved (calls_since w w')
       = [Save (length (heap w)) output_path ICO
               (Some (seq (S (length (heap w))) (length rest)))
               (Some ((fun s => (s, s)) <$> size :: rest))]
    /\ heap w' = heap w ++ (icon <$> size :: rest)
    /\ files w' = <[output_path :=
                      {| file_format := ICO; file_image := icon size;
                         file_append_images := Some (icon <$> rest);
                         file_sizes := Some ((fun s => (s, s)) <$> size :: rest) |}]>
                    (files w)
    /\ stdout w' = stdout w ++ ico_stdout output_path (size :: rest)
    /\ stderr w' = stderr w.
Proof.
  intros Hq. exists (exported output_path size rest w).
  split; [apply create_ico_ok; exact Hq|].
  assert (Hcalls : calls_since w (exported output_path size rest w)
                   = renderings (size :: rest) (length (heap w))
                     ++ [ico_save output_path (size :: rest) (length (heap w))]).
  { unfold calls_since, ncalls, exported. cbn [calls]. apply drop_app_length. }
  rewrite Hcalls.
  split; [|split; [|repeat split]].
  - unfold created. rewrite omap_app.
    fold (created (renderings (size :: rest) (length (heap w)))).
    rewrite created_renderings. cbn [omap ico_save]. apply app_nil_r.
  - unfold saved. rewrite omap_app.
    fold (saved (renderings (size :: rest) (length (heap w)))).
    rewrite saved_renderings. unfold ico_save. cbn [omap app length].
    replace (S (length rest) - 1)%nat with (length rest) by lia. reflexivity.
Qed.

(** X3: whatever the library does, the renderer prints nothing, writes no
    file and no traceback, and does not exit.  It returns a new object, the
    rendering, and leaves the objects there were as they are; or it
    raises. *)
Theorem renderer_is_silent (size : Z) (w : world) :
  (exists w' : world,
      create_house_with_sound_icon size w = Ok (length (heap w)) w'
      /\ heap w' = heap w ++ [icon size]
      /\ stdout w' = stdout w /\ stderr w' = stderr w /\ files w' = files w)
  \/ (exists (e : exn) (w' : world),
        create_house_with_sound_icon size w = Raise e w'
        /\ stdout w' = stdout w /\ stderr w' = stderr w /\ files w' = files w).
Proof.
  destruct (render_cases size w) as [[_ Hok] | Hraise].
  - left. eexists. split; [exact Hok|]. repeat split.
  - right. exact Hraise.
Qed.



(** X8: a run without a fault calls [print] fifteen times, with these
    arguments in this order.  The thirteenth argument starts with a newline,
    so the run writes sixteen lines, the thirteenth of them empty.  It
    prints no traceback. *)
Theorem successful_run_prints (w : world) :
  quiet (ncalls w) main_calls ->
  exists w' : world,
    process true w = (0, w')
    /\ stdout w' = stdout w ++ success_stdout
    /\ stdout_lines (stdout w') = stdout_lines (stdout w) ++ success_lines
    /\ length success_stdout = 15%nat
    /\ length success_lines = 16%nat
    /\ success_lines !! 12%nat = Some EmptyString
    /\ stderr w' = stderr w.
Proof.
  intros Hq. exists (finished "src/app.ico" "src/app.png" w).
  unfold process. rewrite script_with_pillow.
  destruct (main_cases w) as [[_ Hok] | [Hnq _]]; [|contradiction].
  rewrite Hok.
  assert (Hout : stdout (finished "src/app.ico" "src/app.png" w)
                 = stdout w ++ success_stdout).
  { unfold finished. cbn [stdout]. f_equal. }
  split; [reflexivity|]. split; [exact Hout|].
  split; [|repeat split].
  cbn [snd]. rewrite Hout. unfold stdout_lines. rewrite bind_app.
  f_equal.
Qed.

End Faults.

(* ===================================================================== *)
(** * The house, in coordinates and in pixels *)
(* ===================================================================== *)

Section House.
Context `{lib : Pillow}.

(** The width of the window's outline, in terms of the size. *)
Lemma half_of_a_thirtieth (size : Z) :
  Z.max 1 (Z.max 1 (size / 30) / 2) = Z.max 1 (size / 60).
Proof. Z.div_mod_to_equations. lia. Qed.

(** The body lies on the canvas, in pixels. *)
Lemma body_pixels (size : Z) :
  0 < size ->
  0 <= to_int (body_x1 size) /\ to_int (body_x2 size) < size
  /\ 0 <= to_int (body_y1 size) /\ to_int (body_y2 size) < size.
Proof.
  intros Hsize.
  assert (H : forall k : float, (0 < k <= 22)%Q ->
                0 <= to_int (Float64.mul k (scale_of size)) < size).
  { intros k Hk. apply Canvas.to_int_on_canvas, Canvas.scaled_on_canvas; assumption. }
  unfold body_x1, body_x2, body_y1, body_y2.
  repeat split; apply H; split; vm_compute; easy.
Qed.

(** X4: every coordinate the renderer gives to a drawing call lies
    strictly between 0 and [size], and truncates to the index of a pixel of
    the image: nothing is drawn off the canvas. *)
Theorem primitives_lie_on_canvas (size : Z) (w : world) :
  0 < size ->
  quiet (ncalls w) (length (rendering size 0%nat)) ->
  exists (img : ref) (w' : world),
    create_house_with_sound_icon size w = Ok img w'
    /\ Forall (fun s => Forall (fun c => (0 < c < inject_Z size)%Q
                                         /\ 0 <= to_int c < size)
                               (coordinates_of s))
              (drawn_on img (calls_since w w')).
Proof.
  intros Hsize Hq.
  destruct (render_run size w Hq) as (img & w' & Hrun & _ & _ & _ & Hdrawn).
  exists img, w'. split; [exact Hrun|]. rewrite Hdrawn.
  eapply Forall_impl; [apply Canvas.coordinates_on_canvas; exact Hsize|].
  intros s Hs. eapply Forall_impl; [exact Hs|].
  intros c Hc. split; [exact Hc | apply Canvas.to_int_on_canvas; exact Hc].
Qed.

(** X11: the bounding boxes the renderer gives to [arc] and to
    [rectangle] are never inverted: the left edge is not right of the right
    edge, nor the top edge below the bottom edge, at any size. *)
Theorem boxes_are_never_inverted (size : Z) (w : world) :
  0 < size ->
  quiet (ncalls w) (length (rendering size 0%nat)) ->
  exists (img : ref) (w' : world),
    create_house_with_sound_icon size w = Ok img w'
    /\ Forall box_ordered (drawn_on img (calls_since w w')).
Proof.
  intros Hsize Hq.
  destruct (render_run size w Hq) as (img & w' & Hrun & _ & _ & _ & Hdrawn).
  exists img, w'. split; [exact Hrun|]. rewrite Hdrawn.
  apply Canvas.boxes_ordered. exact Hsize.
Qed.

(** X5: the arcs are stroked with width [max(1, size // 30)] and the
    window is outlined with width [max(1, size // 60)]; the body is given no
    width.  The floats [size / 24 * 0.8] never round across an integer. *)
Theorem stroke_width_is_a_thirtieth (size : Z) (w : world) :
  0 < size < 2 ^ 40 ->
  quiet (ncalls w) (length (rendering size 0%nat)) ->
  exists (img : ref) (w' : world),
    create_house_with_sound_icon size w = Ok img w'
    /\ arc_widths (drawn_on img (calls_since w w'))
       = [Z.max 1 (size / 30); Z.max 1 (size / 30); Z.max 1 (size / 30)]
    /\ rectangle_widths (drawn_on img (calls_since w w'))
       = None :: (if 32 <=? size then [Some (Z.max 1 (size / 60))] else []).
Proof.
  intros Hsize Hq.
  destruct (render_run size w Hq) as (img & w' & Hrun & _ & _ & _ & Hdrawn).
  exists img, w'. split; [exact Hrun|]. rewrite Hdrawn.
  unfold shapes, sound_waves, roof, body, window.
  rewrite (Canvas.line_width_closed_form size Hsize), half_of_a_thirtieth.
  split; destruct (32 <=? size); reflexivity.
Qed.

(** X9: with a rasteriser as assumed, every pixel within the outline of
    the window is light gray, and there is such a pixel: nothing is drawn
    over the window. *)
Theorem window_is_light_gray `{!Rasteriser} (size : Z) (w : world) :
  32 <= size ->
  quiet (ncalls w) (length (rendering size 0%nat)) ->
  exists (img : ref) (w' : world) (im : image),
    create_house_with_sound_icon size w = Ok img w'
    /\ heap w' !! img = Some im
    /\ let bw := Z.max 1 (line_width size / 2) in
       to_int (window_x1 size) + bw <= to_int (window_x2 size) - bw
       /\ to_int (window_y1 size) + bw <= to_int (window_y2 size) - bw
       /\ forall x y : Z,
            to_int (window_x1 size) + bw <= x <= to_int (window_x2 size) - bw ->
            to_int (window_y1 size) + bw <= y <= to_int (window_y2 size) - bw ->
            getpixel im x y = Some light_gray.
Proof.
  intros Hsize Hq.
  destruct (render_run size w Hq) as (img & w' & Hrun & Him & _).
  exists img, w', (icon size).
  split; [exact Hrun|]. split; [exact Him|].
  destruct (Geometry.window_pixels size Hsize) as [(Hx0 & Hx & Hx') (Hy0 & Hy & Hy')].
  intros bw.
  assert (Hbw : 1 <= bw) by apply Z.le_max_l.
  split; [exact Hx|]. split; [exact Hy|].
  intros x y Hxin Hyin.
  assert (Hfill : stroke (window size) x y = Some light_gray).
  { unfold window. fold bw. apply rectangle_filled; simpl border; clearbody bw; lia. }
  clearbody bw.
  rewrite getpixel_inside
    by (unfold icon; rewrite ?paint_all_width, ?paint_all_height; cbn; lia).
  f_equal. unfold icon. rewrite paint_all_pixel.
  unfold shapes. destruct (32 <=? size) eqn:Hge; [|lia].
  rewrite app_assoc.
  rewrite (last_stroke_occludes _ [] (window size) _ _ light_gray);
    [reflexivity | exact Hfill | intros s' Hs'; inversion Hs'].
Qed.

(** X10: with a rasteriser as assumed, every pixel within the outline of
    the body is of the foreground colour, but for the box of the window
    when there is one. *)
Theorem body_is_foreground `{!Rasteriser} (size : Z) (w : world) :
  0 < size ->
  quiet (ncalls w) (length (rendering size 0%nat)) ->
  exists (img : ref) (w' : world) (im : image),
    create_house_with_sound_icon size w = Ok img w'
    /\ heap w' !! img = Some im
    /\ forall x y : Z,
         to_int (body_x1 size) + 1 <= x <= to_int (body_x2 size) - 1 ->
         to_int (body_y1 size) + 1 <= y <= to_int (body_y2 size) - 1 ->
         size < 32
         \/ ~ (to_int (window_x1 size) <= x <= to_int (window_x2 size)
               /\ to_int (window_y1 size) <= y <= to_int (window_y2 size)) ->
         getpixel im x y = Some foreground.
Proof.
  intros Hsize Hq.
  destruct (render_run size w Hq) as (img & w' & Hrun & Him & _).
  exists img, w', (icon size).
  split; [exact Hrun|]. split; [exact Him|].
  destruct (body_pixels size Hsize) as (Hx0 & Hx1 & Hy0 & Hy1).
  intros x y Hxin Hyin Hout.
  assert (Hfill : stroke (body size) x y = Some foreground).
  { unfold body. apply rectangle_filled; simpl border; lia. }
  rewrite getpixel_inside
    by (unfold icon; rewrite ?paint_all_width, ?paint_all_height; cbn; lia).
  f_equal. unfold icon. rewrite paint_all_pixel.
  unfold shapes.
  replace (sound_waves size ++ [roof size; body size]
           ++ (if 32 <=? size then [window size] else []))
    with ((sound_waves size ++ [roof size])
          ++ body size :: (if 32 <=? size then [window size] else []))
    by (rewrite <- app_assoc; reflexivity).
  rewrite (last_stroke_occludes _ _ (body size) _ _ foreground);
    [reflexivity | exact Hfill |].
  intros s' Hs'.
  destruct (32 <=? size) eqn:Hge; [|inversion Hs'].
  apply list_elem_of_singleton in Hs'. subst s'.
  destruct (stroke (window size) x y) as [ink|] eqn:Hstroke; [|reflexivity].
  exfalso. unfold window in Hstroke. apply rectangle_within in Hstroke.
  destruct Hout as [Hsmall | Hout]; [lia | exact (Hout Hstroke)].
Qed.

End House.

(* ===================================================================== *)
(** * More of the script at work, on the reference library *)
(* ===================================================================== *)

(** Given 64 and then 16, [create_ico] renders 64 first and saves on its
    image, with the image of 16 appended. *)
Lemma create_ico_at_64_then_16 :
  @quiet reference (ncalls empty_world) (length (renderings [64; 16] 0%nat) + 1)
  /\ exists w',
       @create_ico reference "out.ico" [64; 16] empty_world = Ok tt w'
       /\ created (calls_since empty_world w') = [(64, 64); (16, 16)]
       /\ saved (calls_since empty_world w')
          = [Save 0%nat "out.ico" ICO (Some [1%nat]) (Some [(64, 64); (16, 16)])].
Proof.
  split; [apply reference_quiet|].
  destruct (@create_ico_follows_given_order reference "out.ico" 64 [16] empty_world
              (reference_quiet _ _))
    as (w' & Hrun & Hcreated & Hsaved & _).
  exists w'. split; [exact Hrun|]. split; [exact Hcreated | exact Hsaved].
Defined.

(** At size 24 the five primitives lie on the canvas. *)
Lemma primitives_on_canvas_at_24 :
  0 < 24
  /\ @quiet reference (ncalls empty_world) (length (rendering 24 0%nat))
  /\ exists img w',
       @create_house_with_sound_icon reference 24 empty_world = Ok img w'
       /\ Forall (fun s => Forall (fun c => 0 <= to_int c < 24) (coordinates_of s))
                 (drawn_on img (calls_since empty_world w')).
Proof.
  split; [lia|]. split; [apply reference_quiet|].
  destruct (@primitives_lie_on_canvas reference 24 empty_world
              ltac:(lia) (reference_quiet _ _))
    as (img & w' & Hrun & Hall).
  exists img, w'. split; [exact Hrun|].
  eapply Forall_impl; [exact Hall|].
  intros s Hs. eapply Forall_impl; [exact Hs|].
  intros c [_ Hc]. exact Hc.
Defined.

(** At size 256 the arcs are 8 pixels wide and the outline of the window
    is 4 pixels wide. *)
Lemma stroke_width_at_256 :
  0 < 256 < 2 ^ 40
  /\ @quiet reference (ncalls empty_world) (length (rendering 256 0%nat))
  /\ exists img w',
       @create_house_with_sound_icon reference 256 empty_world = Ok img w'
       /\ arc_widths (drawn_on img (calls_since empty_world w')) = [8; 8; 8]
       /\ rectangle_widths (drawn_on img (calls_since empty_world w'))
          = [None; Some 4].
Proof.
  assert (Hsize : 0 < 256 < 2 ^ 40) by (split; reflexivity).
  split; [exact Hsize|]. split; [apply reference_quiet|].
  destruct (@stroke_width_is_a_thirtieth reference 256 empty_world
              Hsize (reference_quiet _ _))
    as (img & w' & Hrun & Harcs & Hrects).
  exists img, w'. split; [exact Hrun|]. split; [exact Harcs | exact Hrects].
Defined.

(** On the reference library the script calls [print] fifteen times and
    writes its sixteen lines. *)
Lemma prints_on_reference :
  @quiet reference (ncalls empty_world) main_calls
  /\ exists w',
       @process reference true empty_world = (0, w')
       /\ stdout w' = success_stdout
       /\ stdout_lines (stdout w') = success_lines
       /\ stderr w' = [].
Proof.
  split; [apply reference_quiet|].
  destruct (@successful_run_prints reference empty_world (reference_quiet _ _))
    as (w' & Hrun & Hout & Hlines & _ & _ & _ & Herr).
  exists w'. split; [exact Hrun|]. split; [exact Hout|].
  split; [exact Hlines | exact Herr].
Defined.

(** At size 32 the pixel in column 13 of row 20 is light gray. *)
Lemma window_pixel_at_32 :
  32 <= 32
  /\ @quiet reference (ncalls empty_world) (length (rendering 32 0%nat))
  /\ exists img w' im,
       @create_house_with_sound_icon reference 32 empty_world = Ok img w'
       /\ heap w' !! img = Some im
       /\ getpixel im 13 20 = Some light_gray.
Proof.
  split; [lia|]. split; [apply reference_quiet|].
  destruct (@window_is_light_gray reference reference_rasteriser 32 empty_world
              ltac:(lia) (reference_quiet _ _))
    as (img & w' & im & Hrun & Him & _ & _ & Hall).
  exists img, w', im. split; [exact Hrun|]. split; [exact Him|].
  apply Hall; split; vm_compute; discriminate.
Defined.

(** At size 24 the pixel in column 10 of row 15 is of the foreground
    colour. *)
Lemma body_pixel_at_24 :
  0 < 24
  /\ @quiet reference (ncalls empty_world) (length (rendering 24 0%nat))
  /\ exists img w' im,
       @create_house_with_sound_icon reference 24 empty_world = Ok img w'
       /\ heap w' !! img = Some im
       /\ getpixel im 10 15 = Some foreground.
Proof.
  split; [lia|]. split; [apply reference_quiet|].
  destruct (@body_is_foreground reference reference_rasteriser 24 empty_world
              ltac:(lia) (reference_quiet _ _))
    as (img & w' & im & Hrun & Him & Hall).
  exists img, w', im. split; [exact Hrun|]. split; [exact Him|].
  apply Hall;
    [split; vm_compute; discriminate | split; vm_compute; discriminate | left; lia].
Defined.

(** At size 16 no box is inverted. *)
Lemma boxes_at_16 :
  0 < 16
  /\ @quiet reference (ncalls empty_world) (length (rendering 16 0%nat))
  /\ exists img w',
       @create_house_with_sound_icon reference 16 empty_world = Ok img w'
       /\ Forall box_ordered (drawn_on img (calls_since empty_world w')).
Proof.
  split; [lia|]. split; [apply reference_quiet|].
  apply (@boxes_are_never_inverted reference 16 empty_world);
    [lia | apply reference_quiet].
Defined.
